(** * racon: the BAM batch reader ([src/bam_parser.cpp], [bam_parser.hpp])

    A shallow embedding of [racon::BamParser<Overlap>] and the properties
    of its [parse] and [reset] member functions.

    - Fixed-width C++ integers are [Z] with the wrap-around written at
      every narrowing conversion and every addition that can overflow.
    - [std::string] and C strings are [string]; a C string is kept
      without its terminating NUL.
    - The htslib decoder is external.  Its stream is the list of records
      that [sam_read1] has not delivered yet.
    - [exit(1)] is [None]; an out-of-bounds read is [Fault]. *)

From Stdlib Require Import ZArith List String Ascii Bool Lia.
From Stdlib Require Import DecimalString.
Import ListNotations.

Local Open Scope string_scope.
Local Open Scope Z_scope.

(** ** Machine integers *)

Definition wrap32 (x : Z) : Z := x mod 2 ^ 32.
Definition wrap64 (x : Z) : Z := x mod 2 ^ 64.

(** [static_cast<char>(x)]: the low eight bits of [x]. *)
Definition to_char (x : Z) : ascii := ascii_of_N (Z.to_N (x mod 256)).

(** The code of a character as an unsigned byte. *)
Definition char_code (c : ascii) : Z := Z.of_N (N_of_ascii c).

(** [std::to_string] on an unsigned value: its decimal digits. *)
Definition to_string (x : Z) : string :=
  NilZero.string_of_uint (N.to_uint (Z.to_N x)).

(** [std::string::length] and [strlen], as a [size_t]. *)
Definition strlen (s : string) : Z := Z.of_nat (String.length s).

(** ** Outcomes of code that reads memory without a bounds check *)

Inductive fault : Type :=
| TargetNameOutOfRange   (* header_->target_name[tid], tid not an index *)
| QualityOutOfRange.     (* qual[0] on an empty quality array *)

Inductive outcome (A : Type) : Type :=
| Ok (a : A)
| Fault (f : fault).

Arguments Ok {A} a.
Arguments Fault {A} f.

Definition bind {A B : Type} (m : outcome A) (k : A -> outcome B) : outcome B :=
  match m with
  | Ok a => k a
  | Fault f => Fault f
  end.

Notation "'let*' x ':=' m 'in' k" := (bind m (fun x => k))
  (at level 10, x name, m at level 100, k at level 200, only parsing).

(** ** htslib: the decoder

    The reader is written against htslib, which [bam_parser.hpp]
    includes at lines 15-16 and which is no part of these sources.
    This module holds what [parse] and [reset] use of it. *)

Module Hts.

(** Modelled from the spec: the flag bits that mark a record as
    unmapped, secondary or supplementary (section 4.1, step 1).  The
    macros are those of [htslib/sam.h], with the values that the
    format gives them. *)
Definition BAM_FUNMAP : Z := 4.
Definition BAM_FSECONDARY : Z := 256.
Definition BAM_FSUPPLEMENTARY : Z := 2048.

(** Modelled from the spec: the packed CIGAR, a sequence of pairs of a
    length and an operation code (section 4.1, step 3).  In
    [htslib/sam.h] an operation is one [uint32_t], the code in its low
    four bits and the length above them, and the symbol of code [op]
    is character [op] of [BAM_CIGAR_STR] followed by six question
    marks. *)
Definition BAM_CIGAR_SHIFT : Z := 4.
Definition BAM_CIGAR_MASK : Z := 15.
Definition BAM_CIGAR_STR_PADDED : string := "MIDNSHP=XB??????".

Definition bam_cigar_op (c : Z) : Z := Z.land c BAM_CIGAR_MASK.
Definition bam_cigar_oplen (c : Z) : Z := Z.shiftr c BAM_CIGAR_SHIFT.
Definition bam_cigar_opchr (c : Z) : ascii :=
  match String.get (Z.to_nat (bam_cigar_op c)) BAM_CIGAR_STR_PADDED with
  | Some ch => ch
  | None => "?"%char
  end.
Definition bam_cigar_gen (l op : Z) : Z :=
  Z.lor (Z.shiftl l BAM_CIGAR_SHIFT) op.

(** Modelled from the spec: the alignment record of section 3, htslib's
    [bam1_t].  It has the fixed-width members of [core] that [parse]
    reads, under their names and with their C types, and the three
    arrays of the data block that [parse] reaches through
    [bam_get_qname], [bam_get_cigar] and [bam_get_qual].  The first is
    the C string at the start of the block; the second holds the
    [core.n_cigar] packed operations and the third the [core.l_qseq]
    raw quality bytes, so these two counts are read off the arrays. *)
Record bam1_t : Type := {
  pos : Z;                    (* hts_pos_t, an int64_t; 0-based *)
  tid : Z;                    (* int32_t *)
  qual : Z;                   (* uint8_t, the mapping quality *)
  flag : Z;                   (* uint16_t *)
  l_qname : Z;                (* uint16_t, counts the terminating NUL *)
  bam_get_qname : string;
  bam_get_cigar : list Z;     (* uint32_t each *)
  bam_get_qual : list Z       (* uint8_t each *)
}.

Definition n_cigar (b : bam1_t) : Z :=
  Z.of_nat (List.length (bam_get_cigar b)).
Definition l_qseq (b : bam1_t) : Z :=
  Z.of_nat (List.length (bam_get_qual b)).

(** [bam_init1]: a zeroed record. *)
Definition bam_init1 : bam1_t :=
  {| pos := 0; tid := 0; qual := 0; flag := 0; l_qname := 0;
     bam_get_qname := EmptyString; bam_get_cigar := [];
     bam_get_qual := [] |}.

(** Modelled from the spec: the header of section 3, htslib's
    [bam_hdr_t], of which [parse] reads the reference-name table. *)
Record bam_hdr_t : Type := { target_name : list string }.

Definition n_targets (h : bam_hdr_t) : Z :=
  Z.of_nat (List.length (target_name h)).

(** Modelled from the spec: the open alignment stream of section 3,
    htslib's [htsFile], as what is still unread of it.
    [unread_header] is what [sam_hdr_read] will find, [None] when it
    cannot be parsed; [unread] holds the records that [sam_read1] will
    deliver before it first answers below zero, at the end of the data
    or on an error. *)
Record htsFile : Type := {
  unread_header : option bam_hdr_t;
  unread : list bam1_t
}.

(** The files that [hts_open] can see, by path. *)
Definition filesystem : Type := string -> option htsFile.

Definition hts_open (fs : filesystem) (path : string) : option htsFile :=
  fs path.

Definition sam_hdr_read (f : htsFile) : option (bam_hdr_t * htsFile) :=
  match unread_header f with
  | Some h => Some (h, {| unread_header := None; unread := unread f |})
  | None => None
  end.

(** [sam_read1]: the next record goes into the caller's buffer and
    the result is non-negative; at the end of the data the result is
    [-1] and the buffer is left alone. *)
Definition sam_read1 (f : htsFile) (a : bam1_t) : Z * htsFile * bam1_t :=
  match unread f with
  | b :: rest =>
      (0, {| unread_header := unread_header f; unread := rest |}, b)
  | [] => (-1, f, a)
  end.

End Hts.

Import Hts.

(** ** What [parse] hands to the [Overlap] constructor *)

Module Overlap.
(** Modelled from the spec: the class [Overlap], whose header
    [overlap.hpp] is not among the sources.  Section 6 of the
    specification and the comment at lines 137-139 list the arguments
    of its constructor; an [Overlap] is kept as those seventeen
    arguments, a null pointer being [None]. *)
Record t : Type := {
  q_name : string;
  q_name_length : Z;
  flag : Z;
  t_name : string;
  t_name_length : Z;
  t_begin : Z;
  mapping_quality : Z;
  cigar : string;
  cigar_length : Z;
  t_next_name : string;
  t_next_name_length : Z;
  t_next_begin : Z;
  template_length : Z;
  sequence : option string;
  sequence_length : Z;
  quality : option string;
  quality_length : Z
}.
End Overlap.

(** ** The body of the loop in [parse] *)

(** The test that skips a record (line 97). *)
Definition skipped (flag : Z) : bool :=
  (negb (Z.land flag BAM_FUNMAP =? 0)
   || negb (Z.land flag BAM_FSECONDARY =? 0)
   || negb (Z.land flag BAM_FSUPPLEMENTARY =? 0))%bool.

(** The loop over the packed CIGAR (lines 118-121): [cigar_str] grows
    by the decimal length and then by the operation symbol. *)
Fixpoint cigar_loop (cigar : list Z) (cigar_str : string) : string :=
  match cigar with
  | [] => cigar_str
  | c :: rest =>
      let cigar_str := (cigar_str ++ to_string (bam_cigar_oplen c))%string in
      let cigar_str :=
        (cigar_str ++ String (bam_cigar_opchr c) EmptyString)%string in
      cigar_loop rest cigar_str
  end.

(** The loop over the quality bytes (lines 130-133): the string is
    resized to [sequence_length] and position [i] receives
    [qual[i] + 33] as a [char]. *)
Fixpoint quality_loop (sequence_length : nat) (qual : list Z)
  : outcome string :=
  match sequence_length, qual with
  | O, _ => Ok EmptyString
  | S n, q :: rest =>
      let* quality_str := quality_loop n rest in
      Ok (String (to_char (q + 33)) quality_str)
  | S _, [] => Fault QualityOutOfRange
  end.

(** The local variables of one iteration, lines 102-134. *)
Module Locals.
Record t : Type := {
  q_name : string;
  q_name_length : Z;
  flag : Z;
  t_name : string;
  t_name_length : Z;
  t_begin : Z;
  mapping_quality : Z;
  cigar_str : string;
  sequence_length : Z;
  quality_str : string
}.
End Locals.

(** Lines 94-134: what one iteration reads off a record that was not
    skipped.  [header_->target_name[tid]] and [qual[0]] are read
    unchecked, and are [Fault] where they leave their array. *)
Definition extract (header : bam_hdr_t) (alignment : bam1_t)
  : outcome Locals.t :=
  let flag := flag alignment in
  let q_name := bam_get_qname alignment in
  let q_name_length := wrap32 (l_qname alignment - 1) in
  let* t_name :=
    (if tid alignment <? 0 then Fault TargetNameOutOfRange
     else match nth_error (target_name header) (Z.to_nat (tid alignment)) with
          | Some s => Ok s
          | None => Fault TargetNameOutOfRange
          end) in
  let t_name_length := wrap32 (strlen t_name) in
  let t_begin := wrap32 (pos alignment + 1) in
  let mapping_quality := qual alignment in
  let cigar_str := cigar_loop (bam_get_cigar alignment) EmptyString in
  let sequence_length := wrap32 (l_qseq alignment) in
  let* qual0 :=
    (match bam_get_qual alignment with
     | q :: _ => Ok q
     | [] => Fault QualityOutOfRange
     end) in
  let* quality_str :=
    (if negb (qual0 =? 255)
     then quality_loop (Z.to_nat sequence_length) (bam_get_qual alignment)
     else Ok EmptyString) in
  Ok {| Locals.q_name := q_name;
        Locals.q_name_length := q_name_length;
        Locals.flag := flag;
        Locals.t_name := t_name;
        Locals.t_name_length := t_name_length;
        Locals.t_begin := t_begin;
        Locals.mapping_quality := mapping_quality;
        Locals.cigar_str := cigar_str;
        Locals.sequence_length := sequence_length;
        Locals.quality_str := quality_str |}.

(** The constructor call of lines 140-153. *)
Definition new_Overlap (x : Locals.t) : Overlap.t :=
  {| Overlap.q_name := Locals.q_name x;
     Overlap.q_name_length := Locals.q_name_length x;
     Overlap.flag := Locals.flag x;
     Overlap.t_name := Locals.t_name x;
     Overlap.t_name_length := Locals.t_name_length x;
     Overlap.t_begin := Locals.t_begin x;
     Overlap.mapping_quality := Locals.mapping_quality x;
     Overlap.cigar := Locals.cigar_str x;
     Overlap.cigar_length := wrap32 (strlen (Locals.cigar_str x));
     Overlap.t_next_name := "*";
     Overlap.t_next_name_length := 1;
     Overlap.t_next_begin := 0;
     Overlap.template_length := 0;
     Overlap.sequence := None;
     Overlap.sequence_length := Locals.sequence_length x;
     Overlap.quality :=
       if (String.length (Locals.quality_str x) =? 0)%nat then None
       else Some (Locals.quality_str x);
     Overlap.quality_length := wrap32 (strlen (Locals.quality_str x)) |}.

(** The estimate of lines 159-160.  The first sum is of two [uint32_t]
    and wraps at 32 bits; from [cigar_str.length()] on the operands are
    [size_t], of 64 bits. *)
Definition record_bytes (x : Locals.t) : Z :=
  wrap64 (wrap64 (wrap64 (wrap64
    (wrap32 (Locals.q_name_length x + Locals.t_name_length x)
     + strlen (Locals.cigar_str x))
     + Locals.sequence_length x)
     + strlen (Locals.quality_str x))
     + 100).

(** ** [BamParser<Overlap>] *)

Record BamParser : Type := {
  path_ : string;
  file_ : htsFile;
  header_ : bam_hdr_t;
  alignment_ : bam1_t;
  num_objects_read_ : Z;     (* std::atomic<uint64_t> *)
  is_eof_ : bool
}.

(** What the process finds around it: the files, and whether
    [bam_init1] can allocate. *)
Record environment : Type := {
  files : filesystem;
  bam_init1_succeeds : bool
}.

(** The constructor (lines 15-41); [None] is [exit(1)]. *)
Definition BamParser_new (env : environment) (path : string)
  : option BamParser :=
  match hts_open (files env) path with
  | None => None
  | Some file =>
      match sam_hdr_read file with
      | None => None
      | Some (header, file) =>
          if bam_init1_succeeds env
          then Some {| path_ := path; file_ := file; header_ := header;
                       alignment_ := bam_init1;
                       num_objects_read_ := 0; is_eof_ := false |}
          else None
      end
  end.

(** [reset] (lines 55-81); [None] is [exit(1)]. *)
Definition reset (env : environment) (self : BamParser) : option BamParser :=
  match hts_open (files env) (path_ self) with
  | None => None
  | Some file =>
      match sam_hdr_read file with
      | None => None
      | Some (header, file) =>
          Some {| path_ := path_ self; file_ := file; header_ := header;
                  alignment_ := alignment_ self;
                  num_objects_read_ := 0; is_eof_ := false |}
      end
  end.

(** The state after [sam_read1] has delivered [b] and left [rest]. *)
Definition after_read (self : BamParser) (b : bam1_t) (rest : list bam1_t)
  : BamParser :=
  {| path_ := path_ self;
     file_ := {| unread_header := unread_header (file_ self);
                 unread := rest |};
     header_ := header_ self;
     alignment_ := b;
     num_objects_read_ := num_objects_read_ self;
     is_eof_ := is_eof_ self |}.

Definition count_object (self : BamParser) : BamParser :=
  {| path_ := path_ self; file_ := file_ self; header_ := header_ self;
     alignment_ := alignment_ self;
     num_objects_read_ := wrap64 (num_objects_read_ self + 1);
     is_eof_ := is_eof_ self |}.

Definition set_eof (self : BamParser) : BamParser :=
  {| path_ := path_ self; file_ := file_ self; header_ := header_ self;
     alignment_ := alignment_ self;
     num_objects_read_ := num_objects_read_ self;
     is_eof_ := true |}.

Definition result : Type := (bool * BamParser * list Overlap.t)%type.

(** The [while] loop of [parse] (lines 93-168), by recursion on the
    records that [file_] has not delivered yet.  The empty list is
    [sam_read1] answering below zero. *)
Fixpoint parse_loop (records : list bam1_t) (self : BamParser)
    (dst : list Overlap.t) (max_bytes current_bytes num_objects : Z)
  : outcome result :=
  match records with
  | [] => Ok (0 <? num_objects, set_eof self, dst)
  | b :: rest =>
      let self := after_read self b rest in
      let flag := flag (alignment_ self) in
      if skipped flag
      then parse_loop rest self dst max_bytes current_bytes num_objects
      else
        let* x := extract (header_ self) (alignment_ self) in
        let dst := (dst ++ [new_Overlap x])%list in
        let num_objects := wrap64 (num_objects + 1) in
        let self := count_object self in
        let current_bytes := wrap64 (current_bytes + record_bytes x) in
        if current_bytes >=? max_bytes
        then Ok (true, self, dst)
        else parse_loop rest self dst max_bytes current_bytes num_objects
  end.

(** [parse] (lines 83-169). *)
Definition parse (self : BamParser) (dst : list Overlap.t) (max_bytes : Z)
  : outcome result :=
  if is_eof_ self then Ok (false, self, dst)
  else parse_loop (unread (file_ self)) self dst max_bytes 0 0.

(** [createBamParser] (lines 171-173). *)
Definition createBamParser (env : environment) (path : string)
  : option BamParser :=
  BamParser_new env path.

(** ** Sequences of calls *)

Inductive call : Type :=
| Parse (max_bytes : Z)
| Reset.

(** What a caller ends up with: the results of the [parse] calls in
    order, the reader and the destination.  [None] is the process
    having exited, [Some (Fault _)] a read out of bounds. *)
Fixpoint run (env : environment) (calls : list call) (self : BamParser)
    (dst : list Overlap.t)
  : option (outcome (list bool * BamParser * list Overlap.t)) :=
  match calls with
  | [] => Some (Ok ([], self, dst))
  | Parse max_bytes :: calls =>
      match parse self dst max_bytes with
      | Fault f => Some (Fault f)
      | Ok (r, self, dst) =>
          match run env calls self dst with
          | Some (Ok (rs, self, dst)) => Some (Ok (r :: rs, self, dst))
          | other => other
          end
      end
  | Reset :: calls =>
      match reset env self with
      | None => None
      | Some self => run env calls self dst
      end
  end.

(** What can be seen of a reader from outside: everything but the
    contents of the record buffer. *)
Definition observe (self : BamParser)
  : string * htsFile * bam_hdr_t * Z * bool :=
  (path_ self, file_ self, header_ self, num_objects_read_ self,
   is_eof_ self).

(** ** Vocabulary of the statements *)

(** A record that the filter lets through. *)
Definition accepted (b : bam1_t) : bool := negb (skipped (flag b)).

(** [++num_objects] and [++num_objects_read_] on a [uint64_t]. *)
Definition incr (counter : Z) : Z := wrap64 (counter + 1).

(** [x] is what the loop body extracts from [b]. *)
Definition converts (header : bam_hdr_t) (b : bam1_t) (x : Locals.t) : Prop :=
  extract header b = Ok x.

(** [current_bytes] after the accepted records [xs], in order. *)
Definition running_total (current_bytes : Z) (xs : list Locals.t) : Z :=
  fold_left (fun total x => wrap64 (total + record_bytes x)) xs current_bytes.

(** After none of [xs] has the running total reached [max_bytes]. *)
Fixpoint stays_below (max_bytes current_bytes : Z) (xs : list Locals.t)
  : Prop :=
  match xs with
  | [] => True
  | x :: xs =>
      let current_bytes := wrap64 (current_bytes + record_bytes x) in
      current_bytes < max_bytes /\ stays_below max_bytes current_bytes xs
  end.

(** The text that the specification asks for a CIGAR given as pairs of
    a length and an operation code. *)
Definition op_symbol (op : Z) : ascii :=
  match String.get (Z.to_nat op) BAM_CIGAR_STR_PADDED with
  | Some ch => ch
  | None => "?"%char
  end.

Definition cigar_text (pairs : list (Z * Z)) : string :=
  fold_right
    (fun p text =>
       (to_string (fst p) ++ String (op_symbol (snd p)) text)%string)
    EmptyString pairs.

(** Two runs that a caller cannot tell apart. *)
Definition same_outcome
    (r1 r2 : option (outcome (list bool * BamParser * list Overlap.t)))
  : Prop :=
  match r1, r2 with
  | None, None => True
  | Some (Fault f1), Some (Fault f2) => f1 = f2
  | Some (Ok (rs1, self1, dst1)), Some (Ok (rs2, self2, dst2)) =>
      rs1 = rs2 /\ dst1 = dst2 /\ observe self1 = observe self2
  | _, _ => False
  end.

(** How a run of the loop ended, read off its result: at the end of
    the stream, or on the accepted record that filled the budget. *)
Definition ended_at_eof (max_bytes current_bytes num_objects : Z)
    (self self' : BamParser) (r : bool) (xs : list Locals.t) : Prop :=
  is_eof_ self' = true /\
  unread (file_ self') = [] /\
  stays_below max_bytes current_bytes xs /\
  r = (0 <? Nat.iter (List.length xs) incr num_objects).

Definition ended_on_budget (max_bytes current_bytes : Z)
    (self self' : BamParser) (r : bool) (read : list bam1_t)
    (xs : list Locals.t) : Prop :=
  is_eof_ self' = is_eof_ self /\
  r = true /\
  exists read0 b xs0 x,
    read = (read0 ++ [b])%list /\ accepted b = true /\
    alignment_ self' = b /\
    xs = (xs0 ++ [x])%list /\
    stays_below max_bytes current_bytes xs0 /\
    max_bytes <= running_total current_bytes xs.

(** ** A small alignment file, for the examples

    Two unmapped records, a secondary one, and two primary mapped ones
    of which the second carries no qualities. *)

Definition sample_header : bam_hdr_t :=
  {| target_name := ["chr1"%string; "chr2"%string] |}.

Definition sample_cigar : list Z :=
  [bam_cigar_gen 4 0; bam_cigar_gen 2 1; bam_cigar_gen 10 0].

Definition sample_record (flag pos : Z) (cigar qual : list Z) : bam1_t :=
  {| pos := pos; tid := 1; qual := 60; flag := flag; l_qname := 6;
     bam_get_qname := "read1"; bam_get_cigar := cigar; bam_get_qual := qual |}.

Definition with_quality : bam1_t :=
  sample_record 0 99 sample_cigar [33; 34; 35].

Definition without_quality : bam1_t :=
  sample_record 16 7 [] [255; 255].

Definition sample_records : list bam1_t :=
  [ sample_record 4 0 [] [255];
    sample_record 4 0 [] [255];
    sample_record 256 5 sample_cigar [30; 30];
    with_quality;
    without_quality ].

Definition sample_env : environment :=
  {| files := fun path =>
       if String.eqb path "reads.bam"
       then Some {| unread_header := Some sample_header;
                    unread := sample_records |}
       else None;
     bam_init1_succeeds := true |}.

Definition sample_reader : BamParser :=
  {| path_ := "reads.bam";
     file_ := {| unread_header := None; unread := sample_records |};
     header_ := sample_header;
     alignment_ := bam_init1;
     num_objects_read_ := 0;
     is_eof_ := false |}.

(** A reader in the middle of its file, with [records] still to come. *)
Definition reader_on (records : list bam1_t) : BamParser :=
  {| path_ := "reads.bam";
     file_ := {| unread_header := None; unread := records |};
     header_ := sample_header;
     alignment_ := bam_init1;
     num_objects_read_ := 0;
     is_eof_ := false |}.

(** A primary record without a reference, and one without a sequence. *)
Definition no_reference : bam1_t :=
  {| pos := -1; tid := -1; qual := 0; flag := 0; l_qname := 6;
     bam_get_qname := "read2"; bam_get_cigar := []; bam_get_qual := [20; 20] |}.

Definition no_sequence : bam1_t :=
  sample_record 0 99 sample_cigar [].

(** What [extract] yields on the two primary records. *)
Definition with_quality_locals : Locals.t :=
  {| Locals.q_name := "read1"; Locals.q_name_length := 5;
     Locals.flag := 0;
     Locals.t_name := "chr2"; Locals.t_name_length := 4;
     Locals.t_begin := 100; Locals.mapping_quality := 60;
     Locals.cigar_str := "4M2I10M"; Locals.sequence_length := 3;
     Locals.quality_str := "BCD" |}.

Definition without_quality_locals : Locals.t :=
  {| Locals.q_name := "read1"; Locals.q_name_length := 5;
     Locals.flag := 16;
     Locals.t_name := "chr2"; Locals.t_name_length := 4;
     Locals.t_begin := 8; Locals.mapping_quality := 60;
     Locals.cigar_str := EmptyString; Locals.sequence_length := 2;
     Locals.quality_str := EmptyString |}.

(** The sample reader after one call with a budget nothing reaches. *)
Definition sample_exhausted : BamParser :=
  {| path_ := "reads.bam";
     file_ := {| unread_header := None; unread := [] |};
     header_ := sample_header;
     alignment_ := without_quality;
     num_objects_read_ := 2;
     is_eof_ := true |}.

(** ... and after one call with a budget of one byte. *)
Definition sample_after_first : BamParser :=
  {| path_ := "reads.bam";
     file_ := {| unread_header := None; unread := [without_quality] |};
     header_ := sample_header;
     alignment_ := with_quality;
     num_objects_read_ := 1;
     is_eof_ := false |}.

(** A primary record with a quality byte above 222, and one placed
    beyond the reach of a 32-bit coordinate. *)
Definition high_quality_byte : bam1_t :=
  sample_record 0 99 sample_cigar [33; 250].

Definition far_position : bam1_t :=
  sample_record 0 4294967295 sample_cigar [33; 34; 35].

(** ** The htslib objects that a reader owns

    The constructor, [reset] and the destructor open and close the
    file, read and destroy the header, and allocate and destroy the
    record buffer.  What follows keeps, beside the reader, which of its
    three pointers are set and how many htslib objects of each kind the
    process holds. *)

(** Which of [file_], [header_] and [alignment_] are not null. *)
Record pointers : Type := {
  file_set : bool;
  header_set : bool;
  alignment_set : bool
}.

(** The htslib objects that are live: files that [hts_open] returned
    and [hts_close] has not closed, and likewise headers and records. *)
Record held : Type := {
  open_files : Z;
  live_headers : Z;
  live_alignments : Z
}.

Definition file_opened (h : held) : held :=
  {| open_files := open_files h + 1; live_headers := live_headers h;
     live_alignments := live_alignments h |}.

Definition hts_close (h : held) : held :=
  {| open_files := open_files h - 1; live_headers := live_headers h;
     live_alignments := live_alignments h |}.

Definition header_read (h : held) : held :=
  {| open_files := open_files h; live_headers := live_headers h + 1;
     live_alignments := live_alignments h |}.

Definition bam_hdr_destroy (h : held) : held :=
  {| open_files := open_files h; live_headers := live_headers h - 1;
     live_alignments := live_alignments h |}.

Definition alignment_allocated (h : held) : held :=
  {| open_files := open_files h; live_headers := live_headers h;
     live_alignments := live_alignments h + 1 |}.

Definition bam_destroy1 (h : held) : held :=
  {| open_files := open_files h; live_headers := live_headers h;
     live_alignments := live_alignments h - 1 |}.

(** The constructor (lines 15-41) with the objects it takes and gives
    back.  The three pointers start out null; [None] is [exit(1)], and
    the second component is what the process holds at that point. *)
Definition BamParser_new_held (env : environment) (path : string) (h : held)
  : option pointers * held :=
  match hts_open (files env) path with
  | None => (None, h)
  | Some file =>
      let h := file_opened h in
      match sam_hdr_read file with
      | None => (None, hts_close h)
      | Some _ =>
          let h := header_read h in
          if bam_init1_succeeds env
          then (Some {| file_set := true; header_set := true;
                        alignment_set := true |},
                alignment_allocated h)
          else (None, hts_close (bam_hdr_destroy h))
      end
  end.

(** The destructor (lines 43-53). *)
Definition BamParser_delete (p : pointers) (h : held) : held :=
  let h := if alignment_set p then bam_destroy1 h else h in
  let h := if header_set p then bam_hdr_destroy h else h in
  if file_set p then hts_close h else h.

(** [reset] (lines 55-81) with the objects it takes and gives back. *)
Definition reset_held (env : environment) (path : string) (p : pointers)
    (h : held) : option pointers * held :=
  let h := if file_set p then hts_close h else h in
  match hts_open (files env) path with
  | None => (None, h)
  | Some file =>
      let h := file_opened h in
      let h := if header_set p then bam_hdr_destroy h else h in
      match sam_hdr_read file with
      | None => (None, hts_close h)
      | Some _ =>
          (Some {| file_set := true; header_set := true;
                   alignment_set := alignment_set p |},
           header_read h)
      end
  end.

(** [n] calls of [reset], one after the other. *)
Fixpoint resets_held (n : nat) (env : environment) (path : string)
    (p : pointers) (h : held) : option pointers * held :=
  match n with
  | O => (Some p, h)
  | S n =>
      match reset_held env path p h with
      | (Some p, h) => resets_held n env path p h
      | (None, h) => (None, h)
      end
  end.

(** A process that holds nothing of htslib. *)
Definition nothing_held : held :=
  {| open_files := 0; live_headers := 0; live_alignments := 0 |}.

(** An environment in which the sample file has a header that cannot
    be read, and one in which the record buffer cannot be allocated. *)
Definition broken_header_env : environment :=
  {| files := fun path =>
       if String.eqb path "reads.bam"
       then Some {| unread_header := None; unread := sample_records |}
       else None;
     bam_init1_succeeds := true |}.

Definition no_memory_env : environment :=
  {| files := files sample_env; bam_init1_succeeds := false |}.

(** The exhausted sample reader after [reset]: back at the start, with
    the last record still in its buffer. *)
Definition sample_rewound : BamParser :=
  {| path_ := "reads.bam";
     file_ := {| unread_header := None; unread := sample_records |};
     header_ := sample_header;
     alignment_ := without_quality;
     num_objects_read_ := 0;
     is_eof_ := false |}.

(** A constructed reader's pointers, and a process that holds one
    reader's objects. *)
Definition all_set : pointers :=
  {| file_set := true; header_set := true; alignment_set := true |}.

Definition one_reader_held : held :=
  {| open_files := 1; live_headers := 1; live_alignments := 1 |}.

(** ** The estimate in the specification's words

    The byte cost of one accepted record as the plain sum of its six
    terms, and the sum of these costs over the accepted records of a
    call; to be compared with [record_bytes] and [current_bytes], which
    the code computes in 32 and 64 bits. *)
Definition estimate (x : Locals.t) : Z :=
  Locals.q_name_length x + Locals.t_name_length x
  + strlen (Locals.cigar_str x) + Locals.sequence_length x
  + strlen (Locals.quality_str x) + 100.

Definition total_estimate (xs : list Locals.t) : Z :=
  fold_right (fun x total => estimate x + total) 0 xs.

(** ** [reset], one htslib call at a time

    What the process holds after each call that [reset] (lines 55-81)
    makes to htslib, in the order of the source: [hts_close] at line
    57, [hts_open] at line 60, [bam_hdr_destroy] at line 68,
    [sam_hdr_read] at line 71 and, where that fails, [hts_close] at
    line 75.  The second component is what [reset] leaves of the
    pointers, [None] being [exit(1)]. *)
Definition reset_steps (env : environment) (path : string) (p : pointers)
    (h : held) : list held * option pointers :=
  let closed := if file_set p then hts_close h else h in
  match hts_open (files env) path with
  | None => ([closed], None)
  | Some file =>
      let opened := file_opened closed in
      let destroyed :=
        if header_set p then bam_hdr_destroy opened else opened in
      match sam_hdr_read file with
      | None => ([closed; opened; destroyed; hts_close destroyed], None)
      | Some _ =>
          ([closed; opened; destroyed; header_read destroyed],
           Some {| file_set := true; header_set := true;
                   alignment_set := alignment_set p |})
      end
  end.

(** ** Machine arithmetic *)

Ltac conj_split :=
  repeat match goal with |- _ /\ _ => split end.


Lemma wrap64_range (x : Z) : 0 <= wrap64 x < 2 ^ 64.
Proof. unfold wrap64. apply Z.mod_pos_bound. lia. Qed.

Lemma wrap32_range (x : Z) : 0 <= wrap32 x < 2 ^ 32.
Proof. unfold wrap32. apply Z.mod_pos_bound. lia. Qed.

Lemma wrap64_small (x : Z) : 0 <= x < 2 ^ 64 -> wrap64 x = x.
Proof. intros H. unfold wrap64. apply Z.mod_small. exact H. Qed.

Lemma wrap32_small (x : Z) : 0 <= x < 2 ^ 32 -> wrap32 x = x.
Proof. intros H. unfold wrap32. apply Z.mod_small. exact H. Qed.

Lemma wrap32_le (x : Z) : 0 <= x -> wrap32 x <= x.
Proof. intros H. unfold wrap32. apply Z.mod_le; lia. Qed.

Lemma iter_incr_small (k : nat) (n : Z) :
  0 <= n -> n + Z.of_nat k < 2 ^ 64 -> Nat.iter k incr n = n + Z.of_nat k.
Proof.
  induction k as [|k IH]; intros Hn Hk.
  - simpl. lia.
  - rewrite Nat.iter_succ, IH by lia.
    unfold incr. rewrite wrap64_small; lia.
Qed.

Lemma iter_incr_swap (k : nat) (n : Z) :
  Nat.iter k incr (incr n) = Nat.iter (S k) incr n.
Proof.
  induction k as [|k IH]; [reflexivity|].
  rewrite Nat.iter_succ, IH. reflexivity.
Qed.

Lemma char_code_to_char (x : Z) : char_code (to_char x) = x mod 256.
Proof.
  unfold char_code, to_char.
  assert (H : 0 <= x mod 256 < 256) by (apply Z.mod_pos_bound; lia).
  rewrite N_ascii_embedding.
  - apply Z2N.id. lia.
  - change 256%N with (Z.to_N 256). apply Z2N.inj_lt; lia.
Qed.

(** ** htslib's CIGAR macros undo [bam_cigar_gen] *)

Lemma bam_cigar_oplen_gen (l op : Z) :
  0 <= l -> 0 <= op < 16 -> bam_cigar_oplen (bam_cigar_gen l op) = l.
Proof.
  intros Hl Hop. unfold bam_cigar_oplen, bam_cigar_gen, BAM_CIGAR_SHIFT.
  rewrite Z.shiftr_lor, Z.shiftr_shiftl_l by lia.
  replace (4 - 4) with 0 by lia. rewrite Z.shiftl_0_r.
  rewrite (Z.shiftr_div_pow2 op 4) by lia.
  rewrite Z.div_small by lia. apply Z.lor_0_r.
Qed.

Lemma bam_cigar_op_gen (l op : Z) :
  0 <= l -> 0 <= op < 16 -> bam_cigar_op (bam_cigar_gen l op) = op.
Proof.
  intros Hl Hop. unfold bam_cigar_op, bam_cigar_gen, BAM_CIGAR_SHIFT,
    BAM_CIGAR_MASK.
  change 15 with (Z.ones 4).
  rewrite Z.land_lor_distr_l, !Z.land_ones by lia.
  rewrite Z.shiftl_mul_pow2, Z.mod_mul by lia.
  rewrite Z.lor_0_l. apply Z.mod_small. lia.
Qed.

Lemma bam_cigar_opchr_gen (l op : Z) :
  0 <= l -> 0 <= op < 16 ->
  bam_cigar_opchr (bam_cigar_gen l op) = op_symbol op.
Proof.
  intros Hl Hop. unfold bam_cigar_opchr, op_symbol.
  rewrite bam_cigar_op_gen by assumption. reflexivity.
Qed.

(** ** Strings *)

Lemma append_nil_r (s : string) : (s ++ EmptyString)%string = s.
Proof. induction s as [|c s IH]; simpl; [|rewrite IH]; reflexivity. Qed.

Lemma append_assoc (s1 s2 s3 : string) :
  ((s1 ++ s2) ++ s3)%string = (s1 ++ (s2 ++ s3))%string.
Proof. induction s1 as [|c s1 IH]; simpl; [|rewrite IH]; reflexivity. Qed.

(** ** The two inner loops *)

(** The CIGAR loop appends, to what it was given, each operation's
    decimal length and symbol in turn. *)
Lemma cigar_loop_app (cigar : list Z) (cigar_str : string) :
  cigar_loop cigar cigar_str =
  (cigar_str ++
   cigar_text
     (map (fun c => (bam_cigar_oplen c, bam_cigar_op c)) cigar))%string.
Proof.
  revert cigar_str.
  induction cigar as [|c rest IH]; intros cigar_str; simpl.
  - symmetry. apply append_nil_r.
  - rewrite IH, !append_assoc. reflexivity.
Qed.

Lemma map_unpack_gen (pairs : list (Z * Z)) :
  Forall (fun p => 0 <= fst p /\ 0 <= snd p < 16) pairs ->
  map (fun c => (bam_cigar_oplen c, bam_cigar_op c))
      (map (fun p => bam_cigar_gen (fst p) (snd p)) pairs) = pairs.
Proof.
  induction 1 as [|[l op] pairs [Hl Hop] _ IH]; simpl; [reflexivity|].
  simpl in Hl, Hop.
  rewrite bam_cigar_oplen_gen, bam_cigar_op_gen, IH by assumption.
  reflexivity.
Qed.

(** The quality loop never runs off an array that has at least
    [sequence_length] bytes, and writes that many characters. *)
Lemma quality_loop_Ok (n : nat) (qual : list Z) :
  (n <= List.length qual)%nat ->
  exists quality_str,
    quality_loop n qual = Ok quality_str /\
    String.length quality_str = n /\
    forall (i : nat) (q : Z),
      (i < n)%nat -> nth_error qual i = Some q ->
      String.get i quality_str = Some (to_char (q + 33)).
Proof.
  revert qual. induction n as [|n IH]; intros qual Hlen.
  - exists EmptyString. simpl. repeat split. intros i q Hi. lia.
  - destruct qual as [|q0 rest]; simpl in Hlen; [lia|].
    destruct (IH rest) as (s & Hs & Hl & Hget); [lia|].
    exists (String (to_char (q0 + 33)) s). simpl. rewrite Hs. simpl.
    repeat split; [congruence|].
    intros [|i] q Hi Hq; simpl in *.
    + congruence.
    + apply Hget; [lia|assumption].
Qed.

(** ** One record *)

Lemma extract_inv (header : bam_hdr_t) (b : bam1_t) (x : Locals.t) :
  extract header b = Ok x ->
  0 <= tid b /\
  nth_error (target_name header) (Z.to_nat (tid b)) = Some (Locals.t_name x) /\
  (exists q0 rest,
      bam_get_qual b = q0 :: rest /\
      (q0 = 255 -> Locals.quality_str x = EmptyString) /\
      (q0 <> 255 ->
       quality_loop (Z.to_nat (wrap32 (l_qseq b))) (bam_get_qual b)
       = Ok (Locals.quality_str x))) /\
  Locals.q_name x = bam_get_qname b /\
  Locals.q_name_length x = wrap32 (l_qname b - 1) /\
  Locals.flag x = flag b /\
  Locals.t_name_length x = wrap32 (strlen (Locals.t_name x)) /\
  Locals.t_begin x = wrap32 (pos b + 1) /\
  Locals.mapping_quality x = qual b /\
  Locals.cigar_str x = cigar_loop (bam_get_cigar b) EmptyString /\
  Locals.sequence_length x = wrap32 (l_qseq b).
Proof.
  unfold extract. intros H.
  destruct (tid b <? 0) eqn:Htid; [discriminate|].
  apply Z.ltb_ge in Htid.
  destruct (nth_error (target_name header) (Z.to_nat (tid b)))
    as [t_name|] eqn:Hname; [|discriminate].
  destruct (bam_get_qual b) as [|q0 rest] eqn:Hqual; [discriminate|].
  cbn [bind] in H.
  destruct (q0 =? 255) eqn:Hq0; cbn [negb bind] in H.
  - apply Z.eqb_eq in Hq0. injection H as <-. cbn.
    repeat split; try assumption.
    exists q0, rest. split; [reflexivity|]. split; [reflexivity|].
    intros Hne. contradiction.
  - apply Z.eqb_neq in Hq0.
    destruct (quality_loop _ _) as [quality_str|] eqn:Hloop; [|discriminate].
    cbn [bind] in H. injection H as <-. cbn.
    repeat split; try assumption.
    exists q0, rest. split; [reflexivity|]. split; [contradiction|].
    intros _. reflexivity.
Qed.

Lemma l_qseq_fits (b : bam1_t) :
  (Z.to_nat (wrap32 (l_qseq b)) <= List.length (bam_get_qual b))%nat.
Proof.
  unfold l_qseq.
  pose proof (wrap32_le (Z.of_nat (List.length (bam_get_qual b)))) as H.
  pose proof (wrap32_range (Z.of_nat (List.length (bam_get_qual b)))) as R.
  lia.
Qed.

(** Both unchecked reads succeed on a record whose reference id indexes
    the name table and whose quality array is not empty. *)
Lemma extract_total (header : bam_hdr_t) (b : bam1_t) :
  0 <= tid b < n_targets header -> bam_get_qual b <> [] ->
  exists x, extract header b = Ok x.
Proof.
  intros [Hlo Hhi] Hqual. unfold extract.
  destruct (tid b <? 0) eqn:Htid; [apply Z.ltb_lt in Htid; lia|].
  destruct (nth_error (target_name header) (Z.to_nat (tid b)))
    as [t_name|] eqn:Hname.
  2:{ apply nth_error_None in Hname. unfold n_targets in Hhi. lia. }
  destruct (bam_get_qual b) as [|q0 rest] eqn:Hq; [contradiction|].
  cbn [bind].
  destruct (q0 =? 255); cbn [negb bind].
  - eexists. reflexivity.
  - destruct (quality_loop_Ok (Z.to_nat (wrap32 (l_qseq b))) (bam_get_qual b))
      as (s & Hs & _); [apply l_qseq_fits|].
    rewrite Hq in Hs. rewrite Hs. cbn [bind]. eexists. reflexivity.
Qed.

(** ** The loop, one iteration at a time *)

Lemma after_read_sam_read1 (self : BamParser) (b : bam1_t)
    (rest : list bam1_t) :
  unread (file_ self) = b :: rest ->
  sam_read1 (file_ self) (alignment_ self) =
  (0, file_ (after_read self b rest), alignment_ (after_read self b rest)).
Proof. intros H. unfold sam_read1. rewrite H. reflexivity. Qed.

Lemma sam_read1_end (self : BamParser) :
  unread (file_ self) = [] ->
  sam_read1 (file_ self) (alignment_ self) =
  (-1, file_ self, alignment_ self).
Proof. intros H. unfold sam_read1. rewrite H. reflexivity. Qed.

Lemma parse_loop_cons (b : bam1_t) (rest : list bam1_t) (self : BamParser)
    (dst : list Overlap.t) (max_bytes current_bytes num_objects : Z) :
  parse_loop (b :: rest) self dst max_bytes current_bytes num_objects =
  if skipped (flag b)
  then parse_loop rest (after_read self b rest) dst max_bytes current_bytes
         num_objects
  else
    match extract (header_ self) b with
    | Fault f => Fault f
    | Ok x =>
        if wrap64 (current_bytes + record_bytes x) >=? max_bytes
        then Ok (true, count_object (after_read self b rest),
                 (dst ++ [new_Overlap x])%list)
        else parse_loop rest (count_object (after_read self b rest))
               (dst ++ [new_Overlap x])%list max_bytes
               (wrap64 (current_bytes + record_bytes x)) (incr num_objects)
    end.
Proof. reflexivity. Qed.

Lemma running_total_snoc (current_bytes : Z) (xs : list Locals.t)
    (x : Locals.t) :
  running_total current_bytes (xs ++ [x]) =
  wrap64 (running_total current_bytes xs + record_bytes x).
Proof. unfold running_total. rewrite fold_left_app. reflexivity. Qed.

(** ** The loop as a whole *)

Lemma parse_loop_spec (records : list bam1_t) :
  forall (self : BamParser) (dst : list Overlap.t)
         (max_bytes current_bytes num_objects : Z)
         (r : bool) (self' : BamParser) (dst' : list Overlap.t),
    unread (file_ self) = records ->
    parse_loop records self dst max_bytes current_bytes num_objects
    = Ok (r, self', dst') ->
    exists (read : list bam1_t) (xs : list Locals.t),
      records = (read ++ unread (file_ self'))%list /\
      Forall2 (converts (header_ self)) (filter accepted read) xs /\
      dst' = (dst ++ map new_Overlap xs)%list /\
      num_objects_read_ self' =
        Nat.iter (List.length xs) incr (num_objects_read_ self) /\
      path_ self' = path_ self /\
      header_ self' = header_ self /\
      unread_header (file_ self') = unread_header (file_ self) /\
      (ended_at_eof max_bytes current_bytes num_objects self self' r xs \/
       ended_on_budget max_bytes current_bytes self self' r read xs).
Proof.
  induction records as [|b rest IH];
    intros self dst max_bytes current_bytes num_objects r self' dst' Hfile H.
  - simpl in H. injection H as <- <- <-.
    exists [], []. cbn. rewrite Hfile, app_nil_r.
    conj_split; try reflexivity.
    left. unfold ended_at_eof. cbn. conj_split; auto.
  - rewrite parse_loop_cons in H.
    destruct (skipped (flag b)) eqn:Hskip.
    + apply IH in H; [|reflexivity].
      destruct H as (read & xs & Hread & Hconv & Hdst & Hnum & Hpath & Hhdr
                     & Huh & Hend).
      exists (b :: read), xs. cbn in *.
      unfold accepted at 1. rewrite Hskip. cbn.
      conj_split; try assumption; try congruence.
      destruct Hend as [Hend|(He & Hr & read0 & b0 & xs0 & x & -> & Hrest)];
        [left; exact Hend|right].
      split; [exact He|]. split; [exact Hr|].
      exists (b :: read0), b0, xs0, x. split; [reflexivity|exact Hrest].
    + destruct (extract (header_ self) b) as [x|f] eqn:Hx; [|discriminate].
      destruct (wrap64 (current_bytes + record_bytes x) >=? max_bytes)
        eqn:Hbudget.
      * injection H as <- <- <-.
        exists [b], [x]. cbn.
        unfold accepted. rewrite Hskip. cbn.
        conj_split; try reflexivity.
        -- constructor; [exact Hx|constructor].
        -- right. unfold ended_on_budget. cbn. conj_split; try reflexivity.
           exists [], b, [], x. cbn.
           unfold accepted. rewrite Hskip.
           conj_split; auto. apply Z.geb_le in Hbudget. exact Hbudget.
      * apply IH in H; [|reflexivity].
        destruct H as (read & xs & Hread & Hconv & Hdst & Hnum & Hpath & Hhdr
                       & Huh & Hend).
        exists (b :: read), (x :: xs). cbn in *.
        unfold accepted at 1. rewrite Hskip. cbn.
        assert (Hlt : wrap64 (current_bytes + record_bytes x) < max_bytes).
        { rewrite Z.geb_leb in Hbudget. apply Z.leb_gt in Hbudget.
          exact Hbudget. }
        conj_split; try assumption; try congruence.
        -- constructor; assumption.
        -- rewrite Hdst, <- app_assoc. reflexivity.
        -- rewrite Hnum. apply iter_incr_swap.
        -- destruct Hend as [(He & Hu & Hb & Hr)
                            |(He & Hr & read0 & b0 & xs0 & x0 & -> & Hacc & Hal
                              & -> & Hb & Hge)].
           ++ left. unfold ended_at_eof. conj_split; try assumption.
              ** cbn. split; assumption.
              ** rewrite Hr, iter_incr_swap. reflexivity.
           ++ right. split; [exact He|]. split; [exact Hr|].
              exists (b :: read0), b0, (x :: xs0), x0.
              cbn. conj_split; auto.
Qed.

(** When every accepted record of the stream can be converted and the
    running total stays below the budget, the loop reads to the end. *)
Lemma parse_loop_reaches_eof (records : list bam1_t) :
  forall (self : BamParser) (dst : list Overlap.t)
         (max_bytes current_bytes num_objects : Z) (xs : list Locals.t),
    Forall2 (converts (header_ self)) (filter accepted records) xs ->
    stays_below max_bytes current_bytes xs ->
    exists self',
      parse_loop records self dst max_bytes current_bytes num_objects
      = Ok (0 <? Nat.iter (List.length xs) incr num_objects, self',
            (dst ++ map new_Overlap xs)%list) /\
      is_eof_ self' = true.
Proof.
  induction records as [|b rest IH];
    intros self dst max_bytes current_bytes num_objects xs Hconv Hbelow.
  - cbn in Hconv. inversion Hconv; subst. cbn. rewrite app_nil_r.
    eexists. split; reflexivity.
  - rewrite parse_loop_cons. cbn in Hconv. unfold accepted at 1 in Hconv.
    destruct (skipped (flag b)) eqn:Hskip; cbn in Hconv.
    + apply (IH (after_read self b rest)); assumption.
    + inversion Hconv as [|b' x rest' xs' Hx Hrest]; subst.
      unfold converts in Hx. rewrite Hx.
      cbn in Hbelow. destruct Hbelow as [Hlt Hbelow].
      replace (wrap64 (current_bytes + record_bytes x) >=? max_bytes)
        with false by (symmetry; rewrite Z.geb_leb; apply Z.leb_gt; exact Hlt).
      destruct (IH (count_object (after_read self b rest))
                   (dst ++ [new_Overlap x])%list max_bytes
                   (wrap64 (current_bytes + record_bytes x))
                   (incr num_objects) xs' Hrest Hbelow)
        as (self' & Hrun & Heof).
      exists self'. split; [|exact Heof].
      rewrite Hrun, iter_incr_swap. cbn [map]. rewrite <- app_assoc.
      reflexivity.
Qed.

(** When the running total first reaches the budget on the accepted
    record [b], the loop returns there and leaves [rest] unread. *)
Lemma parse_loop_reaches_budget (read : list bam1_t) :
  forall (b : bam1_t) (rest : list bam1_t) (self : BamParser)
         (dst : list Overlap.t) (max_bytes current_bytes num_objects : Z)
         (xs0 : list Locals.t) (x : Locals.t),
    Forall2 (converts (header_ self)) (filter accepted read) xs0 ->
    stays_below max_bytes current_bytes xs0 ->
    accepted b = true ->
    converts (header_ self) b x ->
    max_bytes <= running_total current_bytes (xs0 ++ [x]) ->
    exists self',
      parse_loop (read ++ b :: rest) self dst max_bytes current_bytes
        num_objects
      = Ok (true, self', (dst ++ map new_Overlap (xs0 ++ [x]))%list) /\
      is_eof_ self' = is_eof_ self /\
      unread (file_ self') = rest /\
      alignment_ self' = b.
Proof.
  induction read as [|b0 read IH];
    intros b rest self dst max_bytes current_bytes num_objects xs0 x
           Hconv Hbelow Hacc Hx Hge.
  - cbn in Hconv. inversion Hconv; subst. cbn [app] in *.
    rewrite parse_loop_cons.
    unfold accepted in Hacc. apply negb_true_iff in Hacc. rewrite Hacc.
    unfold converts in Hx. rewrite Hx.
    cbn in Hge.
    replace (wrap64 (current_bytes + record_bytes x) >=? max_bytes)
      with true by (symmetry; apply Z.geb_le; exact Hge).
    eexists. conj_split; reflexivity.
  - cbn [app]. rewrite parse_loop_cons.
    cbn in Hconv. unfold accepted at 1 in Hconv.
    destruct (skipped (flag b0)) eqn:Hskip; cbn in Hconv.
    + apply (IH b rest (after_read self b0 (read ++ b :: rest)));
        assumption.
    + inversion Hconv as [|b' x0 rest' xs' Hx0 Hrest]; subst.
      unfold converts in Hx0. rewrite Hx0.
      cbn in Hbelow. destruct Hbelow as [Hlt Hbelow].
      replace (wrap64 (current_bytes + record_bytes x0) >=? max_bytes)
        with false by (symmetry; rewrite Z.geb_leb; apply Z.leb_gt; exact Hlt).
      destruct (IH b rest
                   (count_object (after_read self b0 (read ++ b :: rest)))
                   (dst ++ [new_Overlap x0])%list max_bytes
                   (wrap64 (current_bytes + record_bytes x0))
                   (incr num_objects) xs' x Hrest Hbelow Hacc Hx Hge)
        as (self' & Hrun & Heof & Hfile & Hal).
      exists self'. rewrite Hrun. cbn [map app]. rewrite <- app_assoc.
      conj_split; auto.
Qed.

(** ** The sample file, end to end *)

Example sample_constructed :
  BamParser_new sample_env "reads.bam" = Some sample_reader.
Proof. reflexivity. Qed.

Example sample_extract_with_quality :
  extract sample_header with_quality = Ok with_quality_locals.
Proof. reflexivity. Qed.

Example sample_extract_without_quality :
  extract sample_header without_quality = Ok without_quality_locals.
Proof. reflexivity. Qed.

(** Five records, an unbounded budget: [parse] answers [true], two
    overlaps arrive in file order, the counter is two and the stream is
    at its end. *)
Example sample_one_call :
  exists self',
    parse sample_reader [] (2 ^ 64 - 1)
    = Ok (true, self',
          [new_Overlap with_quality_locals;
           new_Overlap without_quality_locals]) /\
    num_objects_read_ self' = 2 /\ is_eof_ self' = true.
Proof. eexists. vm_compute. repeat split. Qed.

(** ** Filtering *)

Lemma skipped_false_bits (flag : Z) :
  skipped flag = false ->
  Z.land flag BAM_FUNMAP = 0 /\
  Z.land flag BAM_FSECONDARY = 0 /\
  Z.land flag BAM_FSUPPLEMENTARY = 0.
Proof.
  unfold skipped. intros H.
  apply orb_false_iff in H. destruct H as [H H3].
  apply orb_false_iff in H. destruct H as [H1 H2].
  apply negb_false_iff, Z.eqb_eq in H1, H2, H3. auto.
Qed.

Lemma skipped_true_bits (flag : Z) :
  skipped flag = true <->
  Z.land flag BAM_FUNMAP <> 0 \/
  Z.land flag BAM_FSECONDARY <> 0 \/
  Z.land flag BAM_FSUPPLEMENTARY <> 0.
Proof.
  unfold skipped. rewrite !orb_true_iff, !negb_true_iff, !Z.eqb_neq.
  tauto.
Qed.

Lemma Forall2_filter_holds {A B : Type} (keep : A -> bool)
    (P : A -> B -> Prop) (l : list A) (xs : list B) :
  Forall2 P (filter keep l) xs ->
  Forall2 (fun a x => keep a = true /\ P a x) (filter keep l) xs.
Proof.
  revert xs. induction l as [|a l IH]; intros xs H; cbn in *.
  - inversion H; subst. constructor.
  - destruct (keep a) eqn:Ha.
    + inversion H; subst. constructor; auto.
    + auto.
Qed.

Lemma Forall2_map_r {A B C : Type} (f : B -> C) (P : A -> C -> Prop)
    (l : list A) (xs : list B) :
  Forall2 (fun a x => P a (f x)) l xs -> Forall2 P l (map f xs).
Proof. induction 1; cbn; constructor; auto. Qed.

(** C1.  A call of [parse] that finds the reader not at its end reads
    the records [read] off the front of the stream.  What it appends to
    the destination is, in order, one [Overlap] for each record of
    [read] that has none of the unmapped, secondary and supplementary
    flags, and nothing for the others.  The lifetime counter is
    incremented once for each of them, and so is the counter of the
    call, which starts at zero and is what the result at the end of the
    stream tests. *)
Theorem parse_filters_records
    (self : BamParser) (dst : list Overlap.t) (max_bytes : Z)
    (r : bool) (self' : BamParser) (dst' : list Overlap.t) :
  is_eof_ self = false ->
  parse self dst max_bytes = Ok (r, self', dst') ->
  exists (read : list bam1_t) (xs : list Locals.t),
    unread (file_ self) = (read ++ unread (file_ self'))%list /\
    Forall2 (converts (header_ self))
            (filter (fun b => negb (skipped (flag b))) read) xs /\
    dst' = (dst ++ map new_Overlap xs)%list /\
    num_objects_read_ self' =
      Nat.iter (List.length xs) incr (num_objects_read_ self) /\
    (is_eof_ self' = true ->
     r = (0 <? Nat.iter (List.length xs) incr 0)) /\
    (0 <= num_objects_read_ self ->
     num_objects_read_ self + Z.of_nat (List.length xs) < 2 ^ 64 ->
     num_objects_read_ self' =
       num_objects_read_ self + Z.of_nat (List.length xs)).
Proof.
  intros Heof H. unfold parse in H. rewrite Heof in H.
  apply parse_loop_spec in H; [|reflexivity].
  destruct H as (read & xs & Hread & Hconv & Hdst & Hnum & _ & _ & _ & Hend).
  exists read, xs. conj_split; try assumption.
  - intros Heof'.
    destruct Hend as [(_ & _ & _ & Hr)|(He & _)]; [exact Hr|congruence].
  - intros Hlo Hhi. rewrite Hnum. apply iter_incr_small; assumption.
Qed.

Lemma parse_filters_records_witness :
  exists (read : list bam1_t) (xs : list Locals.t),
    sample_records = (read ++ [])%list /\
    Forall2 (converts sample_header)
            (filter (fun b => negb (skipped (flag b))) read) xs /\
    [new_Overlap with_quality_locals; new_Overlap without_quality_locals]
      = ([] ++ map new_Overlap xs)%list /\
    2 = Nat.iter (List.length xs) incr 0 /\
    (true = true -> true = (0 <? Nat.iter (List.length xs) incr 0)) /\
    (0 <= 0 -> 0 + Z.of_nat (List.length xs) < 2 ^ 64 ->
     2 = 0 + Z.of_nat (List.length xs)).
Proof.
  exact (parse_filters_records sample_reader [] (2 ^ 64 - 1) true
           sample_exhausted
           [new_Overlap with_quality_locals;
            new_Overlap without_quality_locals]
           eq_refl eq_refl).
Defined.

(** C9.  Every [Overlap] that a call appends carries the flag word of
    its record as it is, and in that word the unmapped, secondary and
    supplementary bits are clear. *)
Theorem appended_flags_are_primary
    (self : BamParser) (dst : list Overlap.t) (max_bytes : Z)
    (r : bool) (self' : BamParser) (dst' : list Overlap.t) :
  is_eof_ self = false ->
  parse self dst max_bytes = Ok (r, self', dst') ->
  exists (read : list bam1_t) (appended : list Overlap.t),
    unread (file_ self) = (read ++ unread (file_ self'))%list /\
    dst' = (dst ++ appended)%list /\
    Forall2 (fun b o => Overlap.flag o = flag b)
            (filter (fun b => negb (skipped (flag b))) read) appended /\
    Forall (fun o =>
              Z.land (Overlap.flag o) BAM_FUNMAP = 0 /\
              Z.land (Overlap.flag o) BAM_FSECONDARY = 0 /\
              Z.land (Overlap.flag o) BAM_FSUPPLEMENTARY = 0) appended.
Proof.
  intros Heof H. unfold parse in H. rewrite Heof in H.
  apply parse_loop_spec in H; [|reflexivity].
  destruct H as (read & xs & Hread & Hconv & Hdst & _).
  exists read, (map new_Overlap xs). conj_split; try assumption.
  - apply Forall2_map_r.
    eapply Forall2_impl; [|exact Hconv].
    intros b x Hx. apply extract_inv in Hx. cbn. tauto.
  - apply Forall2_filter_holds in Hconv.
    remember (filter accepted read) as kept eqn:Hk. clear Hk Hdst.
    induction Hconv as [|b x kept xs [Hb Hx] _ IH]; cbn; constructor.
    + apply extract_inv in Hx.
      destruct Hx as (_ & _ & _ & _ & _ & Hflag & _).
      cbn. rewrite Hflag. apply skipped_false_bits.
      apply negb_true_iff. exact Hb.
    + exact IH.
Qed.

Lemma appended_flags_are_primary_witness :
  exists (read : list bam1_t) (appended : list Overlap.t),
    sample_records = (read ++ [without_quality])%list /\
    [new_Overlap with_quality_locals] = ([] ++ appended)%list /\
    Forall2 (fun b o => Overlap.flag o = flag b)
            (filter (fun b => negb (skipped (flag b))) read) appended /\
    Forall (fun o =>
              Z.land (Overlap.flag o) BAM_FUNMAP = 0 /\
              Z.land (Overlap.flag o) BAM_FSECONDARY = 0 /\
              Z.land (Overlap.flag o) BAM_FSUPPLEMENTARY = 0) appended.
Proof.
  exact (appended_flags_are_primary sample_reader [] 1 true
           sample_after_first [new_Overlap with_quality_locals]
           eq_refl eq_refl).
Defined.

(** ** The fields of an [Overlap] *)

(** C2.  The CIGAR text handed to the constructor is, for each packed
    operation in order, its length in decimal directly followed by the
    symbol of its operation, with nothing in between; so a packed CIGAR
    made from pairs of a length and an operation code is rendered as
    the specification's text of those pairs, and no operation gives
    the empty text. *)
Theorem cigar_is_rendered
    (header : bam_hdr_t) (b : bam1_t) (x : Locals.t) :
  skipped (flag b) = false ->
  extract header b = Ok x ->
  Overlap.cigar (new_Overlap x) =
    cigar_text (map (fun c => (bam_cigar_oplen c, bam_cigar_op c))
                    (bam_get_cigar b)) /\
  Overlap.cigar_length (new_Overlap x) =
    wrap32 (strlen (Overlap.cigar (new_Overlap x))) /\
  (bam_get_cigar b = [] -> Overlap.cigar (new_Overlap x) = EmptyString) /\
  forall pairs : list (Z * Z),
    Forall (fun p => 0 <= fst p /\ 0 <= snd p < 16) pairs ->
    bam_get_cigar b = map (fun p => bam_cigar_gen (fst p) (snd p)) pairs ->
    Overlap.cigar (new_Overlap x) = cigar_text pairs.
Proof.
  intros _ Hx. apply extract_inv in Hx.
  destruct Hx as (_ & _ & _ & _ & _ & _ & _ & _ & _ & Hcigar & _).
  cbn [new_Overlap Overlap.cigar Overlap.cigar_length].
  rewrite Hcigar, cigar_loop_app. cbn [append].
  conj_split.
  - reflexivity.
  - reflexivity.
  - intros ->. reflexivity.
  - intros pairs Hpairs ->. rewrite map_unpack_gen by assumption.
    reflexivity.
Qed.

Lemma cigar_is_rendered_witness :
  Overlap.cigar (new_Overlap with_quality_locals) = "4M2I10M" /\
  Overlap.cigar (new_Overlap without_quality_locals) = EmptyString.
Proof.
  split.
  - refine (proj2 (proj2 (proj2
      (cigar_is_rendered sample_header with_quality with_quality_locals
         eq_refl eq_refl))) [(4, 0); (2, 1); (10, 0)] _ eq_refl).
    repeat constructor; cbn; lia.
  - exact (proj1 (proj2 (proj2
      (cigar_is_rendered sample_header without_quality
         without_quality_locals eq_refl eq_refl))) eq_refl).
Defined.

(** C3, as the specification words it, fails: the character is a
    [char], so a raw byte above 222 does not come out as the byte plus
    33.  Byte 250 becomes character 27, not 283. *)
Lemma quality_byte_250_is_not_283 :
  ~ (forall (x : Locals.t) (i : nat) (q : Z) (c : ascii),
        extract sample_header high_quality_byte = Ok x ->
        nth_error (bam_get_qual high_quality_byte) i = Some q ->
        String.get i (Locals.quality_str x) = Some c ->
        char_code c = q + 33).
Proof.
  intros H.
  specialize (H _ 1%nat 250 (to_char 283) eq_refl eq_refl eq_refl).
  vm_compute in H. discriminate H.
Qed.

(** C3, amended.  For an accepted record, a first quality byte of 0xff
    gives an empty quality string, whatever the length of the array,
    and the constructor receives no quality and length zero.  Any other
    first byte gives a quality string as long as the query sequence,
    whose character at [i] has the code of the raw byte at [i] plus 33
    modulo 256; that is the byte plus 33 for a byte of at most 222. *)
Theorem quality_is_rendered
    (header : bam_hdr_t) (b : bam1_t) (x : Locals.t) :
  skipped (flag b) = false ->
  extract header b = Ok x ->
  l_qseq b <= 2147483647 ->
  (nth_error (bam_get_qual b) 0 = Some 255 ->
   Locals.quality_str x = EmptyString /\
   Overlap.quality (new_Overlap x) = None /\
   Overlap.quality_length (new_Overlap x) = 0) /\
  (nth_error (bam_get_qual b) 0 <> Some 255 ->
   strlen (Locals.quality_str x) = l_qseq b /\
   Overlap.quality (new_Overlap x) = Some (Locals.quality_str x) /\
   Overlap.quality_length (new_Overlap x) = l_qseq b /\
   forall (i : nat) (q : Z),
     nth_error (bam_get_qual b) i = Some q ->
     exists c : ascii,
       String.get i (Locals.quality_str x) = Some c /\
       char_code c = (q + 33) mod 256 /\
       (0 <= q <= 222 -> char_code c = q + 33)).
Proof.
  intros _ Hx Hfits. apply extract_inv in Hx.
  destruct Hx as (_ & _ & (q0 & rest & Hqual & Habsent & Hpresent) & _).
  rewrite Hqual. cbn [nth_error]. split.
  - intros Hq0. injection Hq0 as ->.
    cbn [new_Overlap Overlap.quality Overlap.quality_length].
    rewrite Habsent by reflexivity. cbn. auto.
  - intros Hq0.
    assert (Hne : q0 <> 255) by congruence.
    specialize (Hpresent Hne).
    assert (Hn : Z.to_nat (wrap32 (l_qseq b)) = List.length (bam_get_qual b)).
    { rewrite wrap32_small; unfold l_qseq in *; lia. }
    destruct (quality_loop_Ok (Z.to_nat (wrap32 (l_qseq b))) (bam_get_qual b))
      as (s & Hs & Hlen & Hget); [apply l_qseq_fits|].
    rewrite Hpresent in Hs. injection Hs as <-.
    assert (Hstrlen : strlen (Locals.quality_str x) = l_qseq b).
    { unfold strlen, l_qseq. rewrite Hlen, Hn. reflexivity. }
    cbn [new_Overlap Overlap.quality Overlap.quality_length].
    rewrite Hstrlen.
    conj_split.
    + reflexivity.
    + rewrite Hlen, Hn, Hqual. reflexivity.
    + apply wrap32_small. unfold l_qseq in *. lia.
    + intros i q Hi. rewrite <- Hqual in Hi.
      exists (to_char (q + 33)). conj_split.
      * apply Hget; [|exact Hi]. rewrite Hn.
        apply nth_error_Some. congruence.
      * apply char_code_to_char.
      * intros Hq. rewrite char_code_to_char. apply Z.mod_small. lia.
Qed.

Lemma quality_is_rendered_witness :
  strlen (Locals.quality_str with_quality_locals) = 3 /\
  exists c : ascii,
    String.get 2 (Locals.quality_str with_quality_locals) = Some c /\
    char_code c = 68.
Proof.
  destruct (proj2 (quality_is_rendered sample_header with_quality
                     with_quality_locals eq_refl eq_refl
                     ltac:(vm_compute; discriminate)))
    as (Hlen & _ & _ & Hget); [discriminate|].
  split; [exact Hlen|].
  destruct (Hget 2%nat 35 eq_refl) as (c & Hc & _ & Hcode).
  exists c. split; [exact Hc|]. apply Hcode. lia.
Defined.

(** C4, as the specification words it, fails: the target begin is a
    [uint32_t] and the decoder's position a 64-bit one.  The 0-based
    position 4294967295 gives target begin 0, not 4294967296. *)
Lemma far_position_wraps :
  ~ (forall x : Locals.t,
        extract sample_header far_position = Ok x ->
        Overlap.t_begin (new_Overlap x) = pos far_position + 1).
Proof.
  intros H. specialize (H _ eq_refl). vm_compute in H. discriminate H.
Qed.

(** C4, amended.  For an accepted record the constructor receives: the
    query name, with the decoder's name length less one for the
    terminator as its length; the entry of the header's name table at
    the record's reference id as target name, with its [strlen]; the
    0-based position plus one modulo 2^32 as target begin, which is the
    position plus one from position -1 up to 4294967294, so 100 for
    position 99; and the mapping quality as it is. *)
Theorem fields_are_extracted
    (header : bam_hdr_t) (b : bam1_t) (x : Locals.t) :
  skipped (flag b) = false ->
  extract header b = Ok x ->
  Overlap.q_name (new_Overlap x) = bam_get_qname b /\
  Overlap.q_name_length (new_Overlap x) = wrap32 (l_qname b - 1) /\
  (1 <= l_qname b <= 65535 ->
   Overlap.q_name_length (new_Overlap x) = l_qname b - 1) /\
  0 <= tid b /\
  nth_error (target_name header) (Z.to_nat (tid b))
    = Some (Overlap.t_name (new_Overlap x)) /\
  Overlap.t_name_length (new_Overlap x)
    = wrap32 (strlen (Overlap.t_name (new_Overlap x))) /\
  Overlap.t_begin (new_Overlap x) = wrap32 (pos b + 1) /\
  (-1 <= pos b <= 4294967294 ->
   Overlap.t_begin (new_Overlap x) = pos b + 1) /\
  (pos b = 99 -> Overlap.t_begin (new_Overlap x) = 100) /\
  Overlap.mapping_quality (new_Overlap x) = qual b.
Proof.
  intros _ Hx. apply extract_inv in Hx.
  destruct Hx as (Htid & Hname & _ & Hq & Hql & _ & Htl & Hbegin & Hmapq & _).
  cbn [new_Overlap Overlap.q_name Overlap.q_name_length Overlap.t_name
       Overlap.t_name_length Overlap.t_begin Overlap.mapping_quality].
  conj_split; try assumption.
  - intros Hl. rewrite Hql. apply wrap32_small. lia.
  - intros Hpos. rewrite Hbegin. apply wrap32_small. lia.
  - intros Hpos. rewrite Hbegin, Hpos. reflexivity.
Qed.

Lemma fields_are_extracted_witness :
  Overlap.q_name_length (new_Overlap with_quality_locals) = 5 /\
  Overlap.t_name (new_Overlap with_quality_locals) = "chr2" /\
  Overlap.t_begin (new_Overlap with_quality_locals) = 100 /\
  Overlap.mapping_quality (new_Overlap with_quality_locals) = 60.
Proof.
  destruct (fields_are_extracted sample_header with_quality
              with_quality_locals eq_refl eq_refl)
    as (_ & _ & Hql & _ & Hname & _ & _ & _ & Hbegin & Hmapq).
  conj_split.
  - apply Hql. cbn. lia.
  - apply (f_equal (fun o => match o with
                                | Some s => s
                                | None => EmptyString
                                end)) in Hname.
    symmetry. exact Hname.
  - apply Hbegin. reflexivity.
  - exact Hmapq.
Defined.

(** ** The byte budget and the end of the stream *)

(** The estimate is the plain sum whenever the two name lengths add up
    within 32 bits and the CIGAR text is of a size that memory holds. *)
Lemma record_bytes_plain (header : bam_hdr_t) (b : bam1_t) (x : Locals.t) :
  extract header b = Ok x ->
  Locals.q_name_length x + Locals.t_name_length x < 2 ^ 32 ->
  strlen (Locals.cigar_str x) < 2 ^ 63 ->
  record_bytes x =
    Locals.q_name_length x + Locals.t_name_length x
    + strlen (Locals.cigar_str x) + Locals.sequence_length x
    + strlen (Locals.quality_str x) + 100.
Proof.
  intros Hx Hnames Hcigar. apply extract_inv in Hx.
  destruct Hx as (_ & _ & (q0 & rest & Hqual & Habsent & Hpresent) & _
                  & Hql & _ & Htl & _ & _ & _ & Hseq).
  pose proof (wrap32_range (l_qname b - 1)) as R1.
  pose proof (wrap32_range (strlen (Locals.t_name x))) as R2.
  pose proof (wrap32_range (l_qseq b)) as R3.
  assert (Hq : 0 <= strlen (Locals.quality_str x) < 2 ^ 32).
  { destruct (Z.eq_dec q0 255) as [H255|H255].
    - rewrite (Habsent H255). cbn. lia.
    - specialize (Hpresent H255).
      destruct (quality_loop_Ok (Z.to_nat (wrap32 (l_qseq b))) (bam_get_qual b))
        as (s & Hs & Hlen & _); [apply l_qseq_fits|].
      rewrite Hpresent in Hs. injection Hs as <-.
      unfold strlen. rewrite Hlen. lia. }
  assert (Hc : 0 <= strlen (Locals.cigar_str x)) by (unfold strlen; lia).
  rewrite <- Hql in R1. rewrite <- Htl in R2. rewrite <- Hseq in R3.
  unfold record_bytes.
  rewrite (wrap32_small (_ + _)) by lia.
  set (names := Locals.q_name_length x + Locals.t_name_length x) in *.
  rewrite (wrap64_small (names + _)) by lia.
  rewrite (wrap64_small (names + _ + _)) by lia.
  rewrite (wrap64_small (names + _ + _ + _)) by lia.
  apply wrap64_small. lia.
Qed.

Lemma total_estimate_cons (x : Locals.t) (xs : list Locals.t) :
  total_estimate (x :: xs) = estimate x + total_estimate xs.
Proof. reflexivity. Qed.

Lemma total_estimate_app (xs ys : list Locals.t) :
  total_estimate (xs ++ ys) = total_estimate xs + total_estimate ys.
Proof.
  induction xs as [|x xs IH]; [reflexivity|].
  cbn [app]. rewrite !total_estimate_cons, IH. lia.
Qed.

(** Where the 32-bit sum of the name lengths does not wrap, the code's
    estimate of a record that it has extracted is the plain sum. *)
Lemma estimates_agree (header : bam_hdr_t) (l : list bam1_t)
    (xs : list Locals.t) :
  Forall2 (converts header) l xs ->
  Forall (fun x =>
            Locals.q_name_length x + Locals.t_name_length x < 2 ^ 32 /\
            strlen (Locals.cigar_str x) < 2 ^ 63) xs ->
  Forall (fun x => record_bytes x = estimate x /\ 0 <= estimate x) xs.
Proof.
  induction 1 as [|b x l xs Hx _ IH]; intros Hplain; constructor.
  - inversion Hplain as [|x' xs' [Hnames Hcigar] _]; subst.
    assert (Heq : record_bytes x = estimate x)
      by (eapply record_bytes_plain; eassumption).
    split; [exact Heq|]. rewrite <- Heq.
    unfold record_bytes. apply wrap64_range.
  - apply IH. inversion Hplain; assumption.
Qed.

Lemma total_estimate_nonneg (xs : list Locals.t) :
  Forall (fun x => record_bytes x = estimate x /\ 0 <= estimate x) xs ->
  0 <= total_estimate xs.
Proof.
  induction 1 as [|x xs [_ Hx] _ IH]; [cbn; lia|].
  rewrite total_estimate_cons. lia.
Qed.

(** While the sums stay within 64 bits, [current_bytes] is the sum of
    the estimates so far, and it stays below the budget after every
    record when it is below it after the last. *)
Lemma running_total_is_sum (max_bytes : Z) (xs : list Locals.t) :
  forall current_bytes : Z,
    0 <= current_bytes ->
    Forall (fun x => record_bytes x = estimate x /\ 0 <= estimate x) xs ->
    current_bytes + total_estimate xs < 2 ^ 64 ->
    running_total current_bytes xs = current_bytes + total_estimate xs /\
    ((xs <> [] -> current_bytes + total_estimate xs < max_bytes) ->
     stays_below max_bytes current_bytes xs).
Proof.
  induction xs as [|x xs IH]; intros current_bytes Hcur Hok Hfits.
  - cbn. split; [lia|auto].
  - inversion Hok as [|x' xs' [Heq Hx] Hrest]; subst.
    pose proof (total_estimate_nonneg xs Hrest) as Hxs.
    rewrite total_estimate_cons in Hfits |- *.
    assert (Hstep : wrap64 (current_bytes + record_bytes x)
                    = current_bytes + estimate x)
      by (rewrite Heq; apply wrap64_small; lia).
    destruct (IH (current_bytes + estimate x)) as [Htotal Hbelow];
      [lia|exact Hrest|lia|].
    split.
    + change (running_total current_bytes (x :: xs))
        with (running_total (wrap64 (current_bytes + record_bytes x)) xs).
      rewrite Hstep, Htotal. lia.
    + intros Hlt. specialize (Hlt ltac:(discriminate)).
      cbn [stays_below]. rewrite Hstep. split; [lia|].
      apply Hbelow. intros _. lia.
Qed.

(** C5.  The running total of a call is the sum, over the accepted
    records read so far, of the two name lengths, the CIGAR text
    length, the sequence length, the quality length and 100.  On the
    first accepted record [b] after which this sum is at least
    [max_bytes], [parse] returns [true] at once: the overlaps up to
    that of [b] are appended, what follows [b] stays unread and the
    reader is not at its end.  With no accepted record before [b] this
    is a budget that the first accepted record already fills: exactly
    one overlap is appended. *)
Theorem budget_stops_parse
    (self : BamParser) (dst : list Overlap.t) (max_bytes : Z)
    (read : list bam1_t) (b : bam1_t) (rest : list bam1_t)
    (xs0 : list Locals.t) (x : Locals.t) :
  is_eof_ self = false ->
  unread (file_ self) = (read ++ b :: rest)%list ->
  Forall2 (converts (header_ self))
          (filter (fun b => negb (skipped (flag b))) read) xs0 ->
  skipped (flag b) = false ->
  extract (header_ self) b = Ok x ->
  Forall (fun y =>
            Locals.q_name_length y + Locals.t_name_length y < 2 ^ 32 /\
            strlen (Locals.cigar_str y) < 2 ^ 63) (xs0 ++ [x]) ->
  (xs0 <> [] -> total_estimate xs0 < max_bytes) ->
  max_bytes <= total_estimate xs0 + estimate x < 2 ^ 64 ->
  exists self',
    parse self dst max_bytes
    = Ok (true, self', (dst ++ map new_Overlap xs0 ++ [new_Overlap x])%list) /\
    is_eof_ self' = false /\
    unread (file_ self') = rest /\
    num_objects_read_ self' =
      Nat.iter (S (List.length xs0)) incr (num_objects_read_ self).
Proof.
  intros Heof Hfile Hconv Hskip Hx Hplain Hbefore [Hge Hfits].
  assert (Hall : Forall2 (converts (header_ self))
                   (filter accepted read ++ [b]) (xs0 ++ [x]))
    by (apply Forall2_app; [exact Hconv|constructor; [exact Hx|constructor]]).
  pose proof (estimates_agree _ _ _ Hall Hplain) as Hok.
  pose proof Hok as Hok0. apply Forall_app in Hok0.
  destruct Hok0 as [Hok0 Hokx].
  inversion Hokx as [|x' l' [_ Hxpos] _]; subst.
  pose proof (total_estimate_nonneg xs0 Hok0) as Hpos0.
  assert (Hsum : total_estimate (xs0 ++ [x])
                 = total_estimate xs0 + estimate x).
  { rewrite total_estimate_app, total_estimate_cons.
    change (total_estimate []) with 0. lia. }
  destruct (running_total_is_sum max_bytes xs0 0) as [_ Hbelow];
    [lia|exact Hok0|lia|].
  destruct (running_total_is_sum max_bytes (xs0 ++ [x]) 0) as [Htotal _];
    [lia|exact Hok|lia|].
  assert (Hacc : accepted b = true)
    by (unfold accepted; rewrite Hskip; reflexivity).
  destruct (parse_loop_reaches_budget read b rest self dst max_bytes 0 0
              xs0 x Hconv) as (self' & Hrun & Heof' & Hrest & _).
  - apply Hbelow. intros Hne. specialize (Hbefore Hne). lia.
  - exact Hacc.
  - exact Hx.
  - rewrite Htotal. lia.
  - exists self'. unfold parse. rewrite Heof, Hfile, Hrun.
    rewrite map_app. cbn [map]. conj_split; try congruence.
    rewrite <- Hfile in Hrun.
    apply parse_loop_spec in Hrun; [|reflexivity].
    destruct Hrun as (read' & xs' & _ & _ & Hdst & Hnum & _).
    apply app_inv_head in Hdst.
    apply (f_equal (@List.length _)) in Hdst.
    rewrite !length_map, length_app in Hdst. cbn in Hdst.
    rewrite Hnum, <- Hdst. f_equal. lia.
Qed.

Lemma budget_stops_parse_witness :
  exists self',
    parse sample_reader [] 150
    = Ok (true, self',
          [new_Overlap with_quality_locals;
           new_Overlap without_quality_locals]) /\
    is_eof_ self' = false /\
    unread (file_ self') = [] /\
    num_objects_read_ self' = 2.
Proof.
  refine (budget_stops_parse sample_reader [] 150
            [sample_record 4 0 [] [255]; sample_record 4 0 [] [255];
             sample_record 256 5 sample_cigar [30; 30]; with_quality]
            without_quality [] [with_quality_locals] without_quality_locals
            eq_refl eq_refl _ eq_refl eq_refl _ _ _).
  - repeat constructor.
  - repeat constructor.
  - intros _. vm_compute. reflexivity.
  - vm_compute. split; [discriminate|reflexivity].
Defined.

(** The same, read backwards: a call that leaves the reader short of
    its end has answered [true] on an accepted record, the first after
    which the running total was at least [max_bytes]. *)
Lemma parse_returns_early_only_on_budget
    (self : BamParser) (dst : list Overlap.t) (max_bytes : Z)
    (r : bool) (self' : BamParser) (dst' : list Overlap.t) :
  is_eof_ self = false ->
  parse self dst max_bytes = Ok (r, self', dst') ->
  is_eof_ self' = false ->
  r = true /\
  exists xs0 x,
    dst' = (dst ++ map new_Overlap (xs0 ++ [x]))%list /\
    stays_below max_bytes 0 xs0 /\
    max_bytes <= running_total 0 (xs0 ++ [x]).
Proof.
  intros Heof H Heof'. unfold parse in H. rewrite Heof in H.
  apply parse_loop_spec in H; [|reflexivity].
  destruct H as (read & xs & _ & _ & Hdst & _ & _ & _ & _ & Hend).
  destruct Hend as [(He & _)|(_ & Hr & _ & _ & xs0 & x & _ & _ & _ & -> & Hb
                              & Hge)]; [congruence|].
  split; [exact Hr|]. exists xs0, x. auto.
Qed.

(** A budget that the first accepted record of the stream fills: one
    overlap and the answer [true], whatever was skipped before it. *)
Lemma first_accepted_record_fills_budget
    (self : BamParser) (dst : list Overlap.t) (max_bytes : Z)
    (before : list bam1_t) (b : bam1_t) (rest : list bam1_t)
    (x : Locals.t) :
  is_eof_ self = false ->
  unread (file_ self) = (before ++ b :: rest)%list ->
  Forall (fun s => skipped (flag s) = true) before ->
  skipped (flag b) = false ->
  extract (header_ self) b = Ok x ->
  max_bytes <= record_bytes x ->
  exists self',
    parse self dst max_bytes
    = Ok (true, self', (dst ++ [new_Overlap x])%list) /\
    is_eof_ self' = false /\
    unread (file_ self') = rest.
Proof.
  intros Heof Hfile Hbefore Hskip Hx Hge.
  assert (Hnone : filter accepted before = []).
  { clear Hfile. induction Hbefore as [|s before Hs _ IH]; cbn.
    - reflexivity.
    - unfold accepted at 1. rewrite Hs. exact IH. }
  assert (Hacc : accepted b = true)
    by (unfold accepted; rewrite Hskip; reflexivity).
  destruct (parse_loop_reaches_budget before b rest self dst max_bytes 0 0
              [] x) as (self' & Hrun & Heof' & Hrest & _).
  - rewrite Hnone. constructor.
  - exact I.
  - exact Hacc.
  - exact Hx.
  - cbn. rewrite wrap64_small; [exact Hge|].
    unfold record_bytes. apply wrap64_range.
  - exists self'. unfold parse. rewrite Heof, Hfile, Hrun. cbn [map app].
    conj_split; [reflexivity|congruence|exact Hrest].
Qed.

(** C6.  When the running total stays below [max_bytes] after every
    accepted record of what is left of the stream, [parse] reads to the
    end and returns in the ordinary way: the reader is marked as at its
    end, and the result is [true] when the call accepted a record and
    [false] when it accepted none. *)
Theorem exhaustion_sets_eof
    (self : BamParser) (dst : list Overlap.t) (max_bytes : Z)
    (xs : list Locals.t) :
  is_eof_ self = false ->
  Forall2 (converts (header_ self))
          (filter (fun b => negb (skipped (flag b))) (unread (file_ self)))
          xs ->
  stays_below max_bytes 0 xs ->
  Z.of_nat (List.length xs) < 2 ^ 64 ->
  exists self',
    parse self dst max_bytes
    = Ok (match xs with [] => false | _ :: _ => true end, self',
          (dst ++ map new_Overlap xs)%list) /\
    is_eof_ self' = true /\
    unread (file_ self') = [] /\
    num_objects_read_ self' =
      Nat.iter (List.length xs) incr (num_objects_read_ self).
Proof.
  intros Heof Hconv Hbelow Hfew.
  destruct (parse_loop_reaches_eof (unread (file_ self)) self dst max_bytes
              0 0 xs Hconv Hbelow) as (self' & Hrun & Heof').
  exists self'. unfold parse. rewrite Heof, Hrun.
  rewrite iter_incr_small by lia.
  split; [|split; [exact Heof'|]].
  - destruct xs; cbn [List.length]; [reflexivity|].
    replace (0 <? 0 + Z.of_nat (S (List.length xs))) with true;
      [reflexivity|].
    symmetry. apply Z.ltb_lt. lia.
  - apply parse_loop_spec in Hrun; [|reflexivity].
    destruct Hrun as (read' & xs' & _ & _ & Hdst & Hnum & _ & _ & _ & Hend).
    apply app_inv_head in Hdst.
    apply (f_equal (@List.length _)) in Hdst.
    rewrite !length_map in Hdst.
    split; [|congruence].
    destruct Hend as [(_ & Hu & _)|(He & _)]; [exact Hu|congruence].
Qed.

Lemma exhaustion_sets_eof_witness :
  exists self',
    parse sample_reader [] (2 ^ 64 - 1)
    = Ok (true, self',
          [new_Overlap with_quality_locals;
           new_Overlap without_quality_locals]) /\
    is_eof_ self' = true /\
    unread (file_ self') = [] /\
    num_objects_read_ self' = 2.
Proof.
  refine (exhaustion_sets_eof sample_reader [] (2 ^ 64 - 1)
            [with_quality_locals; without_quality_locals]
            eq_refl _ _ _).
  - repeat constructor.
  - vm_compute. repeat split.
  - vm_compute. reflexivity.
Defined.

(** ** After the end of the stream *)

(** C7.  At a reader that is marked as at its end, [parse] returns
    [false] and leaves the reader, stream and counter included, and the
    destination as they were; so does every further call, for as long
    as no [reset] comes between. *)
Theorem parse_after_eof_is_noop
    (env : environment) (self : BamParser) :
  is_eof_ self = true ->
  (forall (dst : list Overlap.t) (max_bytes : Z),
      parse self dst max_bytes = Ok (false, self, dst)) /\
  (forall (dst : list Overlap.t) (budgets : list Z),
      run env (map Parse budgets) self dst
      = Some (Ok (map (fun _ => false) budgets, self, dst))).
Proof.
  intros Heof.
  assert (Hone : forall dst max_bytes,
             parse self dst max_bytes = Ok (false, self, dst)).
  { intros dst max_bytes. unfold parse. rewrite Heof. reflexivity. }
  split; [exact Hone|].
  intros dst budgets. induction budgets as [|max_bytes budgets IH].
  - reflexivity.
  - cbn [map run]. rewrite Hone, IH. reflexivity.
Qed.

Lemma parse_after_eof_is_noop_witness :
  run sample_env (map Parse [2 ^ 64 - 1; 0; 1]) sample_exhausted []
  = Some (Ok ([false; false; false], sample_exhausted, [])).
Proof.
  exact (proj2 (parse_after_eof_is_noop sample_env sample_exhausted eq_refl)
           [] [2 ^ 64 - 1; 0; 1]).
Defined.

(** ** [reset] *)

Lemma observe_fields (s1 s2 : BamParser) :
  observe s1 = observe s2 ->
  path_ s1 = path_ s2 /\ file_ s1 = file_ s2 /\ header_ s1 = header_ s2 /\
  num_objects_read_ s1 = num_objects_read_ s2 /\ is_eof_ s1 = is_eof_ s2.
Proof. unfold observe. intros H. injection H as -> -> -> -> ->. auto. Qed.

Lemma same_outcome_refl
    (r : option (outcome (list bool * BamParser * list Overlap.t))) :
  same_outcome r r.
Proof. destruct r as [[[[rs self] dst]|f]|]; cbn; auto. Qed.

(** The record buffer is written before it is read: two readers that
    differ in it alone are the same reader after one record. *)
Lemma after_read_observe (s1 s2 : BamParser) (b : bam1_t)
    (rest : list bam1_t) :
  observe s1 = observe s2 -> after_read s1 b rest = after_read s2 b rest.
Proof.
  intros H. apply observe_fields in H.
  destruct H as (Hp & Hf & Hh & Hn & He).
  unfold after_read. rewrite Hp, Hf, Hh, Hn, He. reflexivity.
Qed.

Lemma parse_observe (s1 s2 : BamParser) (dst : list Overlap.t)
    (max_bytes : Z) :
  observe s1 = observe s2 ->
  match parse s1 dst max_bytes, parse s2 dst max_bytes with
  | Ok (r1, s1', dst1), Ok (r2, s2', dst2) =>
      r1 = r2 /\ dst1 = dst2 /\ observe s1' = observe s2'
  | Fault f1, Fault f2 => f1 = f2
  | _, _ => False
  end.
Proof.
  intros H. pose proof (observe_fields _ _ H) as (Hp & Hf & Hh & Hn & He).
  unfold parse. rewrite He, Hf.
  destruct (is_eof_ s2); [auto|].
  destruct (unread (file_ s2)) as [|b rest].
  - cbn. conj_split; try reflexivity.
    unfold observe, set_eof. cbn. congruence.
  - rewrite !parse_loop_cons, Hh, (after_read_observe s1 s2 b rest H).
    destruct (skipped (flag b)).
    + destruct (parse_loop rest _ dst max_bytes 0 0) as [[[r s] d]|f]; auto.
    + destruct (extract (header_ s2) b) as [x|f]; [|reflexivity].
      destruct (_ >=? _); [auto|].
      destruct (parse_loop rest _ _ max_bytes _ _) as [[[r s] d]|f]; auto.
Qed.

Lemma reset_observe (env : environment) (s1 s2 : BamParser) :
  observe s1 = observe s2 ->
  match reset env s1, reset env s2 with
  | Some s1', Some s2' => observe s1' = observe s2'
  | None, None => True
  | _, _ => False
  end.
Proof.
  intros H. apply observe_fields in H. destruct H as (Hp & _).
  unfold reset. rewrite Hp.
  destruct (hts_open (files env) (path_ s2)) as [file|]; [|exact I].
  destruct (sam_hdr_read file) as [[header file']|]; [|exact I].
  reflexivity.
Qed.

Lemma run_observe (env : environment) (calls : list call) :
  forall (s1 s2 : BamParser) (dst : list Overlap.t),
    observe s1 = observe s2 ->
    same_outcome (run env calls s1 dst) (run env calls s2 dst).
Proof.
  induction calls as [|[max_bytes|] calls IH]; intros s1 s2 dst H.
  - cbn. auto.
  - cbn [run]. pose proof (parse_observe s1 s2 dst max_bytes H) as Hp.
    destruct (parse s1 dst max_bytes) as [[[r1 s1'] d1]|f1];
      destruct (parse s2 dst max_bytes) as [[[r2 s2'] d2]|f2];
      try contradiction.
    + destruct Hp as (-> & -> & Hobs).
      specialize (IH s1' s2' d2 Hobs).
      destruct (run env calls s1' d2) as [[[[rs1 t1] e1]|g1]|];
        destruct (run env calls s2' d2) as [[[[rs2 t2] e2]|g2]|];
        cbn in IH |- *; try contradiction; try exact IH.
      destruct IH as (-> & -> & Ho). auto.
    + cbn. exact Hp.
  - cbn [run]. pose proof (reset_observe env s1 s2 H) as Hr.
    destruct (reset env s1) as [s1'|]; destruct (reset env s2) as [s2'|];
      try contradiction; [apply IH; exact Hr|exact I].
Qed.

(** C8.  [reset] opens the file at the reader's path again, reads its
    header again, and sets the counter to zero and the end mark to
    false.  The reader it leaves differs from the freshly constructed
    one in nothing a caller can see, however far the reader had gone:
    any sequence of calls gives the same results, the same destination
    and the same counters from either. *)
Theorem reset_restores_initial_state
    (env : environment) (path : string) (fresh self : BamParser) :
  BamParser_new env path = Some fresh ->
  path_ self = path ->
  exists (self' : BamParser) (file : htsFile),
    reset env self = Some self' /\
    hts_open (files env) path = Some file /\
    sam_hdr_read file = Some (header_ self', file_ self') /\
    path_ self' = path /\
    num_objects_read_ self' = 0 /\
    is_eof_ self' = false /\
    observe self' = observe fresh /\
    forall (calls : list call) (dst : list Overlap.t),
      same_outcome (run env calls self' dst) (run env calls fresh dst).
Proof.
  intros Hnew Hpath. unfold BamParser_new in Hnew. unfold reset.
  rewrite Hpath.
  destruct (hts_open (files env) path) as [file|]; [|discriminate].
  destruct (sam_hdr_read file) as [[header file']|] eqn:Hheader;
    [|discriminate].
  destruct (bam_init1_succeeds env); [|discriminate].
  injection Hnew as <-.
  eexists. exists file.
  split; [reflexivity|]. cbn.
  conj_split; try reflexivity.
  - exact Hheader.
  - intros calls dst. apply run_observe. reflexivity.
Qed.

Lemma reset_restores_initial_state_witness :
  exists (self' : BamParser) (file : htsFile),
    reset sample_env sample_exhausted = Some self' /\
    hts_open (files sample_env) "reads.bam" = Some file /\
    sam_hdr_read file = Some (header_ self', file_ self') /\
    path_ self' = "reads.bam" /\
    num_objects_read_ self' = 0 /\
    is_eof_ self' = false /\
    observe self' = observe sample_reader /\
    forall (calls : list call) (dst : list Overlap.t),
      same_outcome (run sample_env calls self' dst)
                   (run sample_env calls sample_reader dst).
Proof.
  exact (reset_restores_initial_state sample_env "reads.bam" sample_reader
           sample_exhausted eq_refl eq_refl).
Defined.

(** ** The two unchecked reads *)

Lemma parse_loop_total (records : list bam1_t) :
  forall (self : BamParser) (dst : list Overlap.t)
         (max_bytes current_bytes num_objects : Z),
    (forall b, In b records -> skipped (flag b) = false ->
               exists x, extract (header_ self) b = Ok x) ->
    exists r self' dst',
      parse_loop records self dst max_bytes current_bytes num_objects
      = Ok (r, self', dst').
Proof.
  induction records as [|b rest IH];
    intros self dst max_bytes current_bytes num_objects Hsafe.
  - cbn. eauto.
  - rewrite parse_loop_cons.
    destruct (skipped (flag b)) eqn:Hskip.
    + apply IH. intros b' Hin. apply Hsafe. right. exact Hin.
    + destruct (Hsafe b (or_introl eq_refl) Hskip) as (x & ->).
      destruct (_ >=? _); [eauto|].
      apply IH. intros b' Hin. apply Hsafe. right. exact Hin.
Qed.

(** Without the precondition both reads do leave their arrays. *)
Example reference_id_out_of_range :
  parse (reader_on [no_reference]) [] 1000
  = Fault TargetNameOutOfRange.
Proof. reflexivity. Qed.

Example quality_array_empty :
  parse (reader_on [no_sequence]) [] 1000 = Fault QualityOutOfRange.
Proof. reflexivity. Qed.

(** C10.  [parse] reads [header_->target_name[tid]] and [qual[0]]
    unchecked.  When every accepted record of the stream has a
    reference id that indexes the name table and a quality array that
    is not empty, both reads find an element at every such record, and
    [parse] returns without ever reading out of bounds. *)
Theorem unchecked_reads_stay_in_bounds
    (self : BamParser) (dst : list Overlap.t) (max_bytes : Z) :
  (forall b, In b (unread (file_ self)) -> skipped (flag b) = false ->
             0 <= tid b < n_targets (header_ self) /\ bam_get_qual b <> []) ->
  (forall b, In b (unread (file_ self)) -> skipped (flag b) = false ->
             exists (t_name : string) (qual0 : Z) (x : Locals.t),
               nth_error (target_name (header_ self)) (Z.to_nat (tid b))
                 = Some t_name /\
               nth_error (bam_get_qual b) 0 = Some qual0 /\
               extract (header_ self) b = Ok x) /\
  (exists r self' dst', parse self dst max_bytes = Ok (r, self', dst')) /\
  (forall f, parse self dst max_bytes <> Fault f).
Proof.
  intros Hpre.
  assert (Hsafe : forall b, In b (unread (file_ self)) ->
                            skipped (flag b) = false ->
                            exists x, extract (header_ self) b = Ok x).
  { intros b Hin Hskip. destruct (Hpre b Hin Hskip) as [Htid Hqual].
    apply extract_total; assumption. }
  assert (Hok : exists r self' dst',
             parse self dst max_bytes = Ok (r, self', dst')).
  { unfold parse. destruct (is_eof_ self); [eauto|].
    apply parse_loop_total. exact Hsafe. }
  conj_split.
  - intros b Hin Hskip. destruct (Hsafe b Hin Hskip) as (x & Hx).
    pose proof (extract_inv _ _ _ Hx) as (_ & Hname & (q0 & rest & Hq & _) & _).
    exists (Locals.t_name x), q0, x. rewrite Hq. auto.
  - exact Hok.
  - intros f Hf. destruct Hok as (r & self' & dst' & Hok). congruence.
Qed.

Lemma unchecked_reads_stay_in_bounds_witness :
  exists r self' dst', parse sample_reader [] 150 = Ok (r, self', dst').
Proof.
  refine (proj1 (proj2
            (unchecked_reads_stay_in_bounds sample_reader [] 150 _))).
  intros b Hin _. cbn in Hin.
  repeat (destruct Hin as [<-|Hin];
          [cbn; split; [lia|discriminate]|]).
  contradiction.
Defined.

(** ** Beyond one call: what a caller can rely on *)

Lemma converts_functional (header : bam_hdr_t) (l : list bam1_t)
    (xs ys : list Locals.t) :
  Forall2 (converts header) l xs -> Forall2 (converts header) l ys ->
  xs = ys.
Proof.
  intros Hxs. revert ys.
  induction Hxs as [|b x l xs Hx _ IH]; intros ys Hys; inversion Hys; subst.
  - reflexivity.
  - f_equal; [unfold converts in *; congruence|apply IH; assumption].
Qed.

Lemma converted_at_most_read (header : bam_hdr_t) (read : list bam1_t)
    (xs : list Locals.t) :
  Forall2 (converts header) (filter accepted read) xs ->
  (List.length xs <= List.length read)%nat.
Proof.
  intros H. apply Forall2_length in H. rewrite <- H.
  apply filter_length_le.
Qed.

(** One call, whatever the state of the reader: the summary that the
    statements about several calls are built from. *)
Lemma parse_spec (self : BamParser) (dst : list Overlap.t) (max_bytes : Z)
    (r : bool) (self' : BamParser) (dst' : list Overlap.t) :
  parse self dst max_bytes = Ok (r, self', dst') ->
  exists (read : list bam1_t) (xs : list Locals.t),
    unread (file_ self) = (read ++ unread (file_ self'))%list /\
    Forall2 (converts (header_ self)) (filter accepted read) xs /\
    dst' = (dst ++ map new_Overlap xs)%list /\
    num_objects_read_ self' =
      Nat.iter (List.length xs) incr (num_objects_read_ self) /\
    path_ self' = path_ self /\
    header_ self' = header_ self /\
    unread_header (file_ self') = unread_header (file_ self) /\
    (is_eof_ self = true -> self' = self /\ r = false) /\
    (is_eof_ self = false -> is_eof_ self' = true ->
     unread (file_ self') = [] /\
     r = (0 <? Nat.iter (List.length xs) incr 0)) /\
    (is_eof_ self' = false -> r = true /\ read <> [] /\ xs <> []).
Proof.
  intros H. unfold parse in H. destruct (is_eof_ self) eqn:Heof.
  - injection H as <- <- <-. exists [], []. cbn. rewrite app_nil_r.
    conj_split; try reflexivity; try congruence; [constructor|auto].
  - apply parse_loop_spec in H; [|reflexivity].
    destruct H as (read & xs & Hread & Hconv & Hdst & Hnum & Hpath & Hhdr
                   & Huh & Hend).
    exists read, xs. conj_split; try assumption; try discriminate.
    + intros _ Heof'.
      destruct Hend as [(_ & Hu & _ & Hr)|(He & _)]; [auto|congruence].
    + intros Heof'.
      destruct Hend as [(He & _)
                       |(_ & Hr & read0 & b & xs0 & x & -> & _ & _ & -> & _)];
        [congruence|].
      conj_split; [exact Hr| |]; intros Hnil;
        apply (f_equal (@List.length _)) in Hnil;
        rewrite length_app in Hnil; cbn in Hnil; lia.
Qed.

(** X1.  [parse] answers [true] exactly when it has appended at least
    one overlap, and a [false] answer always leaves the reader marked
    as at its end, with the destination as it was. *)
Theorem parse_result_tells_progress
    (self : BamParser) (dst : list Overlap.t) (max_bytes : Z)
    (r : bool) (self' : BamParser) (dst' : list Overlap.t) :
  parse self dst max_bytes = Ok (r, self', dst') ->
  Z.of_nat (List.length (unread (file_ self))) < 2 ^ 64 ->
  (r = false -> is_eof_ self' = true /\ dst' = dst) /\
  (r = true -> exists o os, dst' = (dst ++ o :: os)%list).
Proof.
  intros H Hfew. apply parse_spec in H.
  destruct H as (read & xs & Hread & Hconv & Hdst & _ & _ & _ & _ & Hwas
                 & Hnow & Hearly).
  assert (Hlen : (List.length xs <= List.length (unread (file_ self)))%nat).
  { apply converted_at_most_read in Hconv.
    rewrite Hread, length_app. lia. }
  destruct (is_eof_ self) eqn:Heof.
  - destruct (Hwas eq_refl) as [-> ->].
    apply (f_equal (@List.length _)) in Hread.
    rewrite length_app in Hread.
    assert (Hxs : xs = []).
    { destruct xs; [reflexivity|]. cbn in Hlen.
      apply converted_at_most_read in Hconv. cbn in Hconv. lia. }
    subst xs. cbn in Hdst. rewrite app_nil_r in Hdst.
    split; [auto|discriminate].
  - destruct (is_eof_ self') eqn:Heof'.
    + destruct (Hnow eq_refl eq_refl) as [_ Hr].
      rewrite iter_incr_small in Hr by lia.
      destruct xs as [|x xs].
      * cbn in Hdst, Hr. rewrite app_nil_r in Hdst. subst r.
        split; [auto|discriminate].
      * split.
        -- intros ->. symmetry in Hr. apply Z.ltb_ge in Hr.
           cbn [List.length] in Hr. lia.
        -- intros _. exists (new_Overlap x), (map new_Overlap xs).
           exact Hdst.
    + destruct (Hearly eq_refl) as (-> & _ & Hxs).
      split; [discriminate|]. intros _.
      destruct xs as [|x xs]; [contradiction|].
      exists (new_Overlap x), (map new_Overlap xs). exact Hdst.
Qed.

Lemma parse_result_tells_progress_witness :
  (true = false ->
   is_eof_ sample_after_first = true /\
   [new_Overlap with_quality_locals] = []) /\
  (true = true ->
   exists o os, [new_Overlap with_quality_locals] = ([] ++ o :: os)%list).
Proof.
  exact (parse_result_tells_progress sample_reader [] 1 true
           sample_after_first [new_Overlap with_quality_locals]
           eq_refl ltac:(vm_compute; reflexivity)).
Defined.

Lemma run_parses_at_eof (env : environment) (self : BamParser)
    (budgets : list Z) (dst : list Overlap.t) :
  is_eof_ self = true ->
  run env (map Parse budgets) self dst
  = Some (Ok (map (fun _ => false) budgets, self, dst)).
Proof.
  intros Heof. induction budgets as [|max_bytes budgets IH].
  - reflexivity.
  - cbn [map run]. unfold parse. rewrite Heof, IH. reflexivity.
Qed.

Lemma run_parses_cons (env : environment) (max_bytes : Z)
    (budgets : list Z) (self : BamParser) (dst : list Overlap.t)
    (rs : list bool) (self' : BamParser) (dst' : list Overlap.t) :
  run env (map Parse (max_bytes :: budgets)) self dst
  = Some (Ok (rs, self', dst')) ->
  exists r rs1 self1 dst1,
    parse self dst max_bytes = Ok (r, self1, dst1) /\
    run env (map Parse budgets) self1 dst1 = Some (Ok (rs1, self', dst')) /\
    rs = r :: rs1.
Proof.
  cbn [map run]. intros H.
  destruct (parse self dst max_bytes) as [[[r self1] dst1]|f];
    [|discriminate].
  destruct (run env (map Parse budgets) self1 dst1)
    as [[[[rs1 self2] dst2]|f]|] eqn:Hrun; try discriminate.
  injection H as <- <- <-. exists r, rs1, self1, dst1.
  conj_split; [reflexivity|exact Hrun|reflexivity].
Qed.

(** Calls of [parse] one after the other read one prefix of the stream
    between them, and what they append is what one pass over that
    prefix appends. *)
Lemma run_parses_spec (env : environment) (budgets : list Z) :
  forall (self : BamParser) (dst : list Overlap.t) (rs : list bool)
         (self' : BamParser) (dst' : list Overlap.t),
    run env (map Parse budgets) self dst = Some (Ok (rs, self', dst')) ->
    exists (read : list bam1_t) (xs : list Locals.t),
      unread (file_ self) = (read ++ unread (file_ self'))%list /\
      Forall2 (converts (header_ self)) (filter accepted read) xs /\
      dst' = (dst ++ map new_Overlap xs)%list /\
      num_objects_read_ self' =
        Nat.iter (List.length xs) incr (num_objects_read_ self) /\
      path_ self' = path_ self /\
      header_ self' = header_ self /\
      unread_header (file_ self') = unread_header (file_ self) /\
      (is_eof_ self = true -> self' = self) /\
      (is_eof_ self = false -> is_eof_ self' = true ->
       unread (file_ self') = []).
Proof.
  induction budgets as [|max_bytes budgets IH];
    intros self dst rs self' dst' H.
  - cbn in H. injection H as <- <- <-. exists [], []. cbn.
    rewrite app_nil_r.
    conj_split; try reflexivity; try congruence; constructor.
  - apply run_parses_cons in H.
    destruct H as (r & rs1 & self1 & dst1 & Hp & Hrun & ->).
    pose proof (parse_spec _ _ _ _ _ _ Hp)
      as (read1 & xs1 & Hread1 & Hconv1 & Hdst1 & Hnum1 & Hpath1 & Hhdr1
          & Huh1 & Hwas1 & Hnow1 & _).
    pose proof (IH _ _ _ _ _ Hrun)
      as (read2 & xs2 & Hread2 & Hconv2 & Hdst2 & Hnum2 & Hpath2 & Hhdr2
          & Huh2 & Hwas2 & Hnow2).
    exists (read1 ++ read2)%list, (xs1 ++ xs2)%list.
    conj_split.
    + rewrite Hread1, Hread2, app_assoc. reflexivity.
    + rewrite filter_app. apply Forall2_app; [exact Hconv1|].
      rewrite <- Hhdr1. exact Hconv2.
    + rewrite Hdst2, Hdst1, map_app, app_assoc. reflexivity.
    + rewrite Hnum2, Hnum1, length_app, Nat.add_comm, Nat.iter_add.
      reflexivity.
    + congruence.
    + congruence.
    + congruence.
    + intros Heof. destruct (Hwas1 Heof) as [-> _]. apply Hwas2. exact Heof.
    + intros Heof Heof'.
      destruct (is_eof_ self1) eqn:Heof1.
      * rewrite (Hwas2 eq_refl). exact (proj1 (Hnow1 Heof eq_refl)).
      * apply Hnow2; [reflexivity|exact Heof'].
Qed.

Lemma parse_total (self : BamParser) (dst : list Overlap.t)
    (max_bytes : Z) :
  (forall b, In b (unread (file_ self)) -> skipped (flag b) = false ->
             0 <= tid b < n_targets (header_ self) /\
             bam_get_qual b <> []) ->
  exists r self' dst', parse self dst max_bytes = Ok (r, self', dst').
Proof.
  intros Hpre. unfold parse. destruct (is_eof_ self); [eauto|].
  apply parse_loop_total. intros b Hin Hskip.
  destruct (Hpre b Hin Hskip) as [Htid Hqual].
  apply extract_total; assumption.
Qed.

(** X2.  With every accepted record safe to read, calling [parse] more
    often than there are records left always brings the reader to its
    end, whatever the budgets; no call reads out of bounds, and the
    destination has by then received the overlaps of all accepted
    records that were left, in file order. *)
Theorem repeated_parse_reaches_the_end
    (env : environment) (budgets : list Z) :
  forall (self : BamParser) (dst : list Overlap.t),
    is_eof_ self = false ->
    (forall b, In b (unread (file_ self)) -> skipped (flag b) = false ->
               0 <= tid b < n_targets (header_ self) /\
               bam_get_qual b <> []) ->
    (List.length (unread (file_ self)) < List.length budgets)%nat ->
    exists (rs : list bool) (self' : BamParser) (xs : list Locals.t),
      run env (map Parse budgets) self dst
      = Some (Ok (rs, self', (dst ++ map new_Overlap xs)%list)) /\
      is_eof_ self' = true /\
      unread (file_ self') = [] /\
      Forall2 (converts (header_ self))
              (filter (fun b => negb (skipped (flag b)))
                      (unread (file_ self))) xs.
Proof.
  induction budgets as [|max_bytes budgets IH];
    intros self dst Heof Hpre Hlen; [cbn in Hlen; lia|].
  destruct (parse_total self dst max_bytes Hpre) as (r & self1 & dst1 & Hp).
  pose proof (parse_spec _ _ _ _ _ _ Hp)
    as (read & xs & Hread & Hconv & Hdst & _ & _ & Hhdr & _ & _ & Hnow
        & Hearly).
  cbn [map run]. rewrite Hp.
  destruct (is_eof_ self1) eqn:Heof1.
  - destruct (Hnow Heof eq_refl) as [Hnil _].
    rewrite (run_parses_at_eof env self1 budgets dst1 Heof1).
    exists (r :: map (fun _ => false) budgets), self1, xs.
    rewrite Hread, Hnil, app_nil_r, <- Hdst. auto.
  - destruct (Hearly eq_refl) as (_ & Hne & _).
    assert (Hshort : (List.length (unread (file_ self1))
                      < List.length budgets)%nat).
    { apply (f_equal (@List.length _)) in Hread.
      rewrite length_app in Hread. cbn [List.length] in Hlen.
      destruct read; [contradiction|]. cbn in Hread. lia. }
    destruct (IH self1 dst1 Heof1) as (rs & self' & xs' & Hrun & He & Hu & Hc).
    + intros b Hin. rewrite Hhdr. apply Hpre. rewrite Hread.
      apply in_or_app. right. exact Hin.
    + exact Hshort.
    + rewrite Hrun. exists (r :: rs), self', (xs ++ xs')%list.
      rewrite Hdst, map_app, app_assoc.
      conj_split; try assumption; try reflexivity.
      rewrite Hread. change (fun b => negb (skipped (flag b))) with accepted.
      rewrite filter_app. apply Forall2_app; [exact Hconv|].
      rewrite <- Hhdr. exact Hc.
Qed.

Lemma repeated_parse_reaches_the_end_witness :
  exists (rs : list bool) (self' : BamParser) (xs : list Locals.t),
    run sample_env (map Parse [1; 1; 1; 1; 1; 1]) sample_reader []
    = Some (Ok (rs, self', ([] ++ map new_Overlap xs)%list)) /\
    is_eof_ self' = true /\
    unread (file_ self') = [] /\
    Forall2 (converts sample_header)
            (filter (fun b => negb (skipped (flag b))) sample_records) xs.
Proof.
  refine (repeated_parse_reaches_the_end sample_env [1; 1; 1; 1; 1; 1]
            sample_reader [] eq_refl _ _).
  - intros b Hin _. cbn in Hin.
    repeat (destruct Hin as [<-|Hin];
            [cbn; split; [lia|discriminate]|]).
    contradiction.
  - cbn. lia.
Defined.

(** X3.  How a caller cuts the file into batches does not matter: two
    sequences of [parse] calls that both bring the same reader to its
    end have appended the same overlaps and leave readers that agree in
    stream, header, counter and end mark. *)
Theorem budgets_do_not_change_the_output
    (env : environment) (self : BamParser) (dst : list Overlap.t)
    (budgets1 budgets2 : list Z) (rs1 rs2 : list bool)
    (self1 self2 : BamParser) (dst1 dst2 : list Overlap.t) :
  run env (map Parse budgets1) self dst = Some (Ok (rs1, self1, dst1)) ->
  run env (map Parse budgets2) self dst = Some (Ok (rs2, self2, dst2)) ->
  is_eof_ self1 = true ->
  is_eof_ self2 = true ->
  dst1 = dst2 /\ observe self1 = observe self2.
Proof.
  intros H1 H2 Heof1 Heof2.
  destruct (is_eof_ self) eqn:Heof.
  - rewrite run_parses_at_eof in H1, H2 by exact Heof.
    injection H1 as _ <- <-. injection H2 as _ <- <-. auto.
  - apply run_parses_spec in H1, H2.
    destruct H1 as (read1 & xs1 & Hread1 & Hconv1 & Hdst1 & Hnum1 & Hpath1
                    & Hhdr1 & Huh1 & _ & Hnow1).
    destruct H2 as (read2 & xs2 & Hread2 & Hconv2 & Hdst2 & Hnum2 & Hpath2
                    & Hhdr2 & Huh2 & _ & Hnow2).
    specialize (Hnow1 Heof Heof1). specialize (Hnow2 Heof Heof2).
    rewrite Hnow1, app_nil_r in Hread1. rewrite Hnow2, app_nil_r in Hread2.
    subst read1 read2.
    assert (Hxs : xs1 = xs2) by (eapply converts_functional; eassumption).
    subst xs2. split; [congruence|].
    unfold observe.
    destruct (file_ self1) as [uh1 u1], (file_ self2) as [uh2 u2].
    cbn in *. congruence.
Qed.

Lemma budgets_do_not_change_the_output_witness :
  [new_Overlap with_quality_locals; new_Overlap without_quality_locals]
  = [new_Overlap with_quality_locals; new_Overlap without_quality_locals] /\
  observe sample_exhausted = observe sample_exhausted.
Proof.
  exact (budgets_do_not_change_the_output sample_env sample_reader []
           [2 ^ 64 - 1] [1; 1; 1] [true] [true; true; false]
           sample_exhausted sample_exhausted
           [new_Overlap with_quality_locals;
            new_Overlap without_quality_locals]
           [new_Overlap with_quality_locals;
            new_Overlap without_quality_locals]
           eq_refl eq_refl eq_refl eq_refl).
Defined.

Lemma parse_loop_frame (records : list bam1_t) :
  forall (self : BamParser) (dst acc : list Overlap.t)
         (max_bytes current_bytes num_objects : Z),
    parse_loop records self (dst ++ acc)%list max_bytes current_bytes
      num_objects
    = match parse_loop records self acc max_bytes current_bytes
              num_objects with
      | Ok (r, self', appended) => Ok (r, self', (dst ++ appended)%list)
      | Fault f => Fault f
      end.
Proof.
  induction records as [|b rest IH];
    intros self dst acc max_bytes current_bytes num_objects.
  - reflexivity.
  - rewrite !parse_loop_cons.
    destruct (skipped (flag b)); [apply IH|].
    destruct (extract (header_ self) b) as [x|f]; [|reflexivity].
    rewrite <- app_assoc.
    destruct (_ >=? _); [reflexivity|apply IH].
Qed.

(** X4.  [parse] neither reads nor alters what the destination holds
    already: its result on a destination [dst] is its result on the
    empty destination, with [dst] in front of what was appended. *)
Theorem parse_only_appends
    (self : BamParser) (dst : list Overlap.t) (max_bytes : Z) :
  parse self dst max_bytes
  = match parse self [] max_bytes with
    | Ok (r, self', appended) => Ok (r, self', (dst ++ appended)%list)
    | Fault f => Fault f
    end.
Proof.
  unfold parse. destruct (is_eof_ self).
  - rewrite app_nil_r. reflexivity.
  - rewrite <- (parse_loop_frame _ self dst []), app_nil_r. reflexivity.
Qed.

(** X5.  The counter counts what was delivered: over any sequence of
    [parse] calls it grows by exactly the number of overlaps appended,
    so from a reader whose counter is zero it ends as the number of
    overlaps that the calls have added to the destination. *)
Theorem counter_counts_appended_overlaps
    (env : environment) (self : BamParser) (dst : list Overlap.t)
    (budgets : list Z) (rs : list bool) (self' : BamParser)
    (dst' : list Overlap.t) :
  run env (map Parse budgets) self dst = Some (Ok (rs, self', dst')) ->
  0 <= num_objects_read_ self ->
  num_objects_read_ self
    + Z.of_nat (List.length (unread (file_ self))) < 2 ^ 64 ->
  num_objects_read_ self' =
    num_objects_read_ self
    + (Z.of_nat (List.length dst') - Z.of_nat (List.length dst)).
Proof.
  intros H Hlo Hhi. apply run_parses_spec in H.
  destruct H as (read & xs & Hread & Hconv & Hdst & Hnum & _).
  apply converted_at_most_read in Hconv.
  apply (f_equal (@List.length _)) in Hread.
  rewrite length_app in Hread.
  rewrite Hnum, iter_incr_small by lia.
  rewrite Hdst, length_app, length_map. lia.
Qed.

Lemma counter_counts_appended_overlaps_witness :
  num_objects_read_ sample_exhausted =
    num_objects_read_ sample_reader
    + (Z.of_nat (List.length [new_Overlap with_quality_locals;
                              new_Overlap without_quality_locals])
       - Z.of_nat (@List.length Overlap.t [])).
Proof.
  exact (counter_counts_appended_overlaps sample_env sample_reader []
           [1; 1; 1] [true; true; false] sample_exhausted
           [new_Overlap with_quality_locals;
            new_Overlap without_quality_locals]
           eq_refl ltac:(vm_compute; discriminate)
           ltac:(vm_compute; reflexivity)).
Defined.

(** ** The size of a batch *)

Lemma quality_str_short (header : bam_hdr_t) (b : bam1_t) (x : Locals.t) :
  extract header b = Ok x ->
  strlen (Locals.quality_str x) = 0 \/
  (Locals.quality_str x <> EmptyString /\
   strlen (Locals.quality_str x) = Locals.sequence_length x).
Proof.
  intros Hx. apply extract_inv in Hx.
  destruct Hx as (_ & _ & (q0 & rest & Hqual & Habsent & Hpresent) & _ & _ & _
                  & _ & _ & _ & _ & Hseq).
  destruct (Z.eq_dec q0 255) as [H255|H255].
  - left. rewrite (Habsent H255). reflexivity.
  - specialize (Hpresent H255).
    destruct (quality_loop_Ok (Z.to_nat (wrap32 (l_qseq b))) (bam_get_qual b))
      as (s & Hs & Hlen & _); [apply l_qseq_fits|].
    rewrite Hpresent in Hs. injection Hs as <-.
    pose proof (wrap32_range (l_qseq b)) as R.
    destruct (Locals.quality_str x) as [|c s] eqn:Hstr.
    + left. reflexivity.
    + right. split; [discriminate|].
      unfold strlen. rewrite Hlen, Hseq. lia.
Qed.

(** An accepted record with names and CIGAR of ordinary size is
    estimated at 100 bytes or more. *)
Lemma record_bytes_bounds (header : bam_hdr_t) (b : bam1_t) (x : Locals.t) :
  extract header b = Ok x ->
  Forall (fun s => strlen s < 2 ^ 31) (target_name header) ->
  1 <= l_qname b <= 65535 ->
  strlen (cigar_loop (bam_get_cigar b) EmptyString) < 2 ^ 62 ->
  100 <= record_bytes x < 2 ^ 63.
Proof.
  intros Hx Hnames Hl Hcigar.
  pose proof (quality_str_short _ _ _ Hx) as Hq.
  pose proof (extract_inv _ _ _ Hx)
    as (_ & Hname & _ & _ & Hql & _ & Htl & _ & _ & Hc & Hseq).
  assert (Ht : 0 <= strlen (Locals.t_name x) < 2 ^ 31).
  { split; [unfold strlen; lia|].
    rewrite Forall_forall in Hnames. apply Hnames.
    eapply nth_error_In. exact Hname. }
  assert (Hqn : Locals.q_name_length x = l_qname b - 1)
    by (rewrite Hql; apply wrap32_small; lia).
  assert (Htn : Locals.t_name_length x = strlen (Locals.t_name x))
    by (rewrite Htl; apply wrap32_small; lia).
  pose proof (wrap32_range (l_qseq b)) as Rs. rewrite <- Hseq in Rs.
  assert (Hcs : 0 <= strlen (Locals.cigar_str x) < 2 ^ 62)
    by (rewrite Hc; split; [unfold strlen; lia|exact Hcigar]).
  rewrite (record_bytes_plain header b x Hx) by lia.
  destruct Hq as [Hq|[_ Hq]]; rewrite Hq; lia.
Qed.

Lemma stays_below_count (max_bytes : Z) (xs : list Locals.t) :
  forall current_bytes : Z,
    0 <= current_bytes < 2 ^ 63 ->
    max_bytes <= 2 ^ 63 ->
    Forall (fun x => 100 <= record_bytes x < 2 ^ 63) xs ->
    stays_below max_bytes current_bytes xs ->
    xs <> [] ->
    current_bytes + 100 * Z.of_nat (List.length xs) < max_bytes.
Proof.
  induction xs as [|x xs IH]; intros current_bytes Hcur Hmax Hcost Hbelow Hne;
    [contradiction|].
  inversion Hcost as [|x' xs' Hx Hrest]; subst.
  cbn in Hbelow. destruct Hbelow as [Hlt Hbelow].
  rewrite wrap64_small in Hlt, Hbelow by lia.
  destruct xs as [|y ys].
  - cbn. lia.
  - specialize (IH (current_bytes + record_bytes x)).
    cbn [List.length] in IH |- *.
    assert (y :: ys <> []) by discriminate.
    specialize (IH ltac:(lia) Hmax Hrest Hbelow H). lia.
Qed.

Lemma Forall2_Forall_r {A B : Type} (P : A -> B -> Prop) (Q : B -> Prop)
    (l : list A) (xs : list B) :
  Forall2 P l xs ->
  (forall a x, In a l -> P a x -> Q x) ->
  Forall Q xs.
Proof.
  induction 1 as [|a x l xs Hax _ IH]; intros HQ; constructor.
  - apply (HQ a x); [left; reflexivity|exact Hax].
  - apply IH. intros a' x' Hin. apply HQ. right. exact Hin.
Qed.

(** X6.  A call never appends more than [max_bytes / 100 + 1]
    overlaps: every accepted record is estimated at 100 bytes or more,
    and the call returns on the first record that brings the total to
    [max_bytes].  This needs the estimates not to wrap, which they do
    not for a budget up to 2^63 and names and CIGAR texts of ordinary
    size. *)
Theorem batch_size_is_bounded
    (self : BamParser) (dst : list Overlap.t) (max_bytes : Z)
    (r : bool) (self' : BamParser) (dst' : list Overlap.t) :
  is_eof_ self = false ->
  parse self dst max_bytes = Ok (r, self', dst') ->
  0 <= max_bytes <= 2 ^ 63 ->
  Forall (fun s => strlen s < 2 ^ 31) (target_name (header_ self)) ->
  (forall b, In b (unread (file_ self)) -> skipped (flag b) = false ->
             1 <= l_qname b <= 65535 /\
             strlen (cigar_loop (bam_get_cigar b) EmptyString) < 2 ^ 62) ->
  Z.of_nat (List.length dst') - Z.of_nat (List.length dst)
  <= max_bytes / 100 + 1.
Proof.
  intros Heof H Hmax Hnames Hsizes. unfold parse in H. rewrite Heof in H.
  apply parse_loop_spec in H; [|reflexivity].
  destruct H as (read & xs & Hread & Hconv & Hdst & _ & _ & _ & _ & Hend).
  assert (Hcost : Forall (fun x => 100 <= record_bytes x < 2 ^ 63) xs).
  { eapply Forall2_Forall_r; [exact Hconv|].
    intros b x Hin Hx. apply filter_In in Hin. destruct Hin as [Hin Hacc].
    destruct (Hsizes b) as [Hl Hc].
    - rewrite Hread. apply in_or_app. left. exact Hin.
    - apply negb_true_iff. exact Hacc.
    - eapply record_bytes_bounds; eassumption. }
  assert (Hdiv : forall k, 100 * k < max_bytes -> k <= max_bytes / 100).
  { intros k Hk. apply Z.div_le_lower_bound; lia. }
  assert (Hq : 0 <= max_bytes / 100) by (apply Z.div_pos; lia).
  rewrite Hdst, length_app, length_map.
  destruct Hend as [(_ & _ & Hbelow & _)
                   |(_ & _ & read0 & b & xs0 & x & _ & _ & _ & -> & Hbelow
                     & _)].
  - destruct xs as [|x xs]; [cbn; lia|].
    pose proof (stays_below_count max_bytes (x :: xs) 0 ltac:(lia)
                  ltac:(lia) Hcost Hbelow ltac:(discriminate)) as Hn.
    specialize (Hdiv _ Hn). lia.
  - apply Forall_app in Hcost. destruct Hcost as [Hcost0 _].
    rewrite length_app. cbn [List.length].
    destruct xs0 as [|x0 xs0]; [cbn; lia|].
    pose proof (stays_below_count max_bytes (x0 :: xs0) 0 ltac:(lia)
                  ltac:(lia) Hcost0 Hbelow ltac:(discriminate)) as Hn.
    specialize (Hdiv _ Hn). lia.
Qed.

Lemma batch_size_is_bounded_witness :
  Z.of_nat (List.length [new_Overlap with_quality_locals])
  - Z.of_nat (@List.length Overlap.t []) <= 1 / 100 + 1.
Proof.
  refine (batch_size_is_bounded sample_reader [] 1 true sample_after_first
            [new_Overlap with_quality_locals] eq_refl eq_refl _ _ _).
  - lia.
  - repeat constructor.
  - intros b Hin _. cbn in Hin.
    repeat (destruct Hin as [<-|Hin];
            [cbn; split; [lia|reflexivity]|]).
    contradiction.
Defined.

(** ** What every appended overlap looks like *)

Lemma new_Overlap_quality (header : bam_hdr_t) (b : bam1_t) (x : Locals.t) :
  extract header b = Ok x ->
  match Overlap.quality (new_Overlap x) with
  | None => Overlap.quality_length (new_Overlap x) = 0
  | Some quality =>
      quality <> EmptyString /\
      Overlap.quality_length (new_Overlap x) = strlen quality /\
      Overlap.quality_length (new_Overlap x)
      = Overlap.sequence_length (new_Overlap x)
  end.
Proof.
  intros Hx. pose proof (quality_str_short _ _ _ Hx) as Hq.
  apply extract_inv in Hx.
  destruct Hx as (_ & _ & _ & _ & _ & _ & _ & _ & _ & _ & Hseq).
  pose proof (wrap32_range (l_qseq b)) as R. rewrite <- Hseq in R.
  cbn [new_Overlap Overlap.quality Overlap.quality_length
       Overlap.sequence_length].
  destruct (Locals.quality_str x) as [|c s] eqn:Hstr; cbn [String.length].
  - reflexivity.
  - destruct Hq as [Hq|[_ Hq]]; [unfold strlen in Hq; cbn in Hq; lia|].
    cbn [Nat.eqb]. rewrite Hq, wrap32_small by lia.
    conj_split; [discriminate|reflexivity|reflexivity].
Qed.

(** X7.  Every overlap that a call appends is a single alignment
    without mate or bases: the mate name is the placeholder of length
    one, the mate begin and the template length are zero and the
    sequence pointer is null.  Its quality is either null with length
    zero, or a string that is not empty and exactly as long as the
    sequence length says. *)
Theorem appended_overlaps_have_one_shape
    (self : BamParser) (dst : list Overlap.t) (max_bytes : Z)
    (r : bool) (self' : BamParser) (dst' : list Overlap.t) :
  parse self dst max_bytes = Ok (r, self', dst') ->
  exists appended : list Overlap.t,
    dst' = (dst ++ appended)%list /\
    Forall (fun o =>
              Overlap.t_next_name o = "*" /\
              Overlap.t_next_name_length o = 1 /\
              Overlap.t_next_begin o = 0 /\
              Overlap.template_length o = 0 /\
              Overlap.sequence o = None /\
              match Overlap.quality o with
              | None => Overlap.quality_length o = 0
              | Some quality =>
                  quality <> EmptyString /\
                  Overlap.quality_length o = strlen quality /\
                  Overlap.quality_length o = Overlap.sequence_length o
              end) appended.
Proof.
  intros H. apply parse_spec in H.
  destruct H as (read & xs & _ & Hconv & Hdst & _).
  exists (map new_Overlap xs). split; [exact Hdst|].
  apply Forall_map.
  eapply Forall2_Forall_r; [exact Hconv|].
  intros b x _ Hx. conj_split; try reflexivity.
  eapply new_Overlap_quality. exact Hx.
Qed.

Lemma appended_overlaps_have_one_shape_witness :
  exists appended : list Overlap.t,
    [new_Overlap with_quality_locals; new_Overlap without_quality_locals]
    = ([] ++ appended)%list /\
    Forall (fun o =>
              Overlap.t_next_name o = "*" /\
              Overlap.t_next_name_length o = 1 /\
              Overlap.t_next_begin o = 0 /\
              Overlap.template_length o = 0 /\
              Overlap.sequence o = None /\
              match Overlap.quality o with
              | None => Overlap.quality_length o = 0
              | Some quality =>
                  quality <> EmptyString /\
                  Overlap.quality_length o = strlen quality /\
                  Overlap.quality_length o = Overlap.sequence_length o
              end) appended.
Proof.
  exact (appended_overlaps_have_one_shape sample_reader [] (2 ^ 64 - 1) true
           sample_exhausted
           [new_Overlap with_quality_locals;
            new_Overlap without_quality_locals] eq_refl).
Defined.

(** ** Any sequence of calls *)

(** X8.  Whatever a caller does with a reader, in any order of [parse]
    and [reset], the reader stays bound to the path it was constructed
    with, and what the destination held is still there, in front of
    what the calls have appended. *)
Theorem calls_keep_path_and_destination
    (env : environment) (calls : list call) :
  forall (self : BamParser) (dst : list Overlap.t) (rs : list bool)
         (self' : BamParser) (dst' : list Overlap.t),
    run env calls self dst = Some (Ok (rs, self', dst')) ->
    path_ self' = path_ self /\
    exists appended : list Overlap.t, dst' = (dst ++ appended)%list.
Proof.
  induction calls as [|[max_bytes|] calls IH];
    intros self dst rs self' dst' H.
  - cbn in H. injection H as _ <- <-. split; [reflexivity|].
    exists []. symmetry. apply app_nil_r.
  - cbn [run] in H.
    destruct (parse self dst max_bytes) as [[[r self1] dst1]|f] eqn:Hp;
      [|discriminate].
    destruct (run env calls self1 dst1) as [[[[rs1 self2] dst2]|f]|] eqn:Hrun;
      try discriminate.
    injection H as _ <- <-.
    apply parse_spec in Hp.
    destruct Hp as (_ & xs & _ & _ & -> & _ & Hpath & _).
    destruct (IH _ _ _ _ _ Hrun) as (Hpath' & appended & ->).
    split; [congruence|].
    exists (map new_Overlap xs ++ appended)%list.
    symmetry. apply app_assoc.
  - cbn [run] in H. unfold reset in H.
    destruct (hts_open (files env) (path_ self)) as [file|]; [|discriminate].
    destruct (sam_hdr_read file) as [[header file']|]; [|discriminate].
    destruct (IH _ _ _ _ _ H) as (Hpath' & appended & ->).
    split; [exact Hpath'|]. exists appended. reflexivity.
Qed.

Lemma calls_keep_path_and_destination_witness :
  path_ sample_exhausted = path_ sample_reader /\
  exists appended : list Overlap.t,
    [new_Overlap with_quality_locals; new_Overlap with_quality_locals;
     new_Overlap without_quality_locals]
    = ([] ++ appended)%list.
Proof.
  exact (calls_keep_path_and_destination sample_env
           [Parse 1; Reset; Parse 150; Parse 0]
           sample_reader [] [true; true; false] sample_exhausted
           [new_Overlap with_quality_locals;
            new_Overlap with_quality_locals;
            new_Overlap without_quality_locals] eq_refl).
Defined.

(** ** The htslib objects of a reader *)

Lemma held_eq (h1 h2 : held) :
  open_files h1 = open_files h2 ->
  live_headers h1 = live_headers h2 ->
  live_alignments h1 = live_alignments h2 ->
  h1 = h2.
Proof. destruct h1, h2. cbn. intros -> -> ->. reflexivity. Qed.

(** X9.  The constructor either exits or builds a whole reader.  When
    it exits, because the file does not open, the header cannot be
    read or the record buffer cannot be allocated, it has given back
    every htslib object it had taken.  When it returns, all three
    pointers are set, one file, one header and one record more are
    live, and the reader stands before the first record of the file at
    its path, with that file's header, a counter of zero and no end
    mark. *)
Theorem constructor_builds_or_cleans_up
    (env : environment) (path : string) (h : held) :
  match BamParser_new_held env path h, BamParser_new env path with
  | (None, h'), None => h' = h
  | (Some p, h'), Some self =>
      p = {| file_set := true; header_set := true; alignment_set := true |} /\
      open_files h' = open_files h + 1 /\
      live_headers h' = live_headers h + 1 /\
      live_alignments h' = live_alignments h + 1 /\
      path_ self = path /\
      (exists file,
          hts_open (files env) path = Some file /\
          unread_header file = Some (header_ self) /\
          unread (file_ self) = unread file) /\
      num_objects_read_ self = 0 /\
      is_eof_ self = false
  | _, _ => False
  end.
Proof.
  unfold BamParser_new_held, BamParser_new.
  destruct (hts_open (files env) path) as [file|] eqn:Hopen; [|reflexivity].
  unfold sam_hdr_read.
  destruct (unread_header file) as [header|] eqn:Hheader.
  - destruct (bam_init1_succeeds env).
    + cbn. conj_split; try reflexivity. exists file. auto.
    + apply held_eq; cbn; lia.
  - apply held_eq; cbn; lia.
Qed.

(** X10.  [reset] on a constructed reader closes the old file before it
    opens the new one and destroys the old header before it reads the
    new one: after none of its calls to htslib does the process hold
    more open files or live headers than it did on entry, and the
    record buffer is never touched.  A [reset] that returns leaves the
    process holding exactly what it held.  A [reset] that exits has
    closed every file the reader had open, and has destroyed the old
    header too when the file did open.  The last of these states is
    the one that [reset_held] computes, and [reset] returns or exits
    as the reader's [reset] does. *)
Theorem reset_replaces_file_and_header
    (env : environment) (self : BamParser) (p : pointers) (h : held) :
  file_set p = true ->
  header_set p = true ->
  Forall (fun s =>
            open_files s <= open_files h /\
            live_headers s <= live_headers h /\
            live_alignments s = live_alignments h)
         (fst (reset_steps env (path_ self) p h)) /\
  reset_held env (path_ self) p h
  = (snd (reset_steps env (path_ self) p h),
     last (fst (reset_steps env (path_ self) p h)) h) /\
  match snd (reset_steps env (path_ self) p h), reset env self with
  | Some p', Some _ =>
      p' = p /\ last (fst (reset_steps env (path_ self) p h)) h = h
  | None, None =>
      open_files (last (fst (reset_steps env (path_ self) p h)) h)
      = open_files h - 1 /\
      live_headers (last (fst (reset_steps env (path_ self) p h)) h)
      = match hts_open (files env) (path_ self) with
        | Some _ => live_headers h - 1
        | None => live_headers h
        end
  | _, _ => False
  end.
Proof.
  intros Hfile Hheader. unfold reset_steps, reset_held, reset.
  rewrite Hfile, Hheader.
  destruct (hts_open (files env) (path_ self)) as [file|].
  - unfold sam_hdr_read.
    destruct (unread_header file) as [header|]; cbn [fst snd last].
    + conj_split.
      * repeat constructor; cbn; lia.
      * reflexivity.
      * destruct p as [f hd a]. cbn in *. subst. reflexivity.
      * apply held_eq; cbn; lia.
    + conj_split.
      * repeat constructor; cbn; lia.
      * reflexivity.
      * cbn. lia.
      * cbn. lia.
  - cbn [fst snd last]. conj_split.
    + repeat constructor; cbn; lia.
    + reflexivity.
    + cbn. lia.
    + reflexivity.
Qed.

Lemma reset_replaces_file_and_header_witness :
  Forall (fun s =>
            open_files s <= 1 /\ live_headers s <= 1 /\
            live_alignments s = 1)
         [ {| open_files := 0; live_headers := 1; live_alignments := 1 |};
           {| open_files := 1; live_headers := 1; live_alignments := 1 |};
           {| open_files := 1; live_headers := 0; live_alignments := 1 |};
           one_reader_held ] /\
  reset_held sample_env "reads.bam" all_set one_reader_held
  = (Some all_set, one_reader_held) /\
  all_set = all_set /\ one_reader_held = one_reader_held.
Proof.
  exact (reset_replaces_file_and_header sample_env sample_exhausted all_set
           one_reader_held eq_refl eq_refl).
Defined.

Lemma resets_held_keep (env : environment) (path : string) (n : nat) :
  forall (p : pointers) (h : held) (p' : pointers) (h' : held),
    file_set p = true -> header_set p = true ->
    resets_held n env path p h = (Some p', h') ->
    p' = p /\ h' = h.
Proof.
  induction n as [|n IH]; intros p h p' h' Hfile Hheader H.
  - cbn in H. injection H as <- <-. auto.
  - cbn [resets_held] in H.
    destruct (reset_held env path p h) as [[p1|] h1] eqn:Hreset;
      [|discriminate].
    unfold reset_held in Hreset. rewrite Hfile, Hheader in Hreset.
    destruct (hts_open (files env) path) as [file|]; [|discriminate].
    destruct (sam_hdr_read file) as [[header file']|]; [|discriminate].
    injection Hreset as <- <-.
    apply IH in H; [|reflexivity|reflexivity].
    destruct H as [-> ->]. split.
    + destruct p as [f hd a]. cbn in *. subst. reflexivity.
    + apply held_eq; cbn; lia.
Qed.

(** X11.  Over the life of a reader nothing of htslib is lost or freed
    twice: construction, any number of calls of [reset] that return,
    and destruction leave the process holding exactly what it held
    before. *)
Theorem reader_lifetime_is_balanced
    (env : environment) (path : string) (n : nat) (h : held)
    (p p' : pointers) (h1 h2 : held) :
  BamParser_new_held env path h = (Some p, h1) ->
  resets_held n env path p h1 = (Some p', h2) ->
  BamParser_delete p' h2 = h.
Proof.
  intros Hnew Hresets. unfold BamParser_new_held in Hnew.
  destruct (hts_open (files env) path) as [file|]; [|discriminate].
  destruct (sam_hdr_read file) as [[header file']|]; [|discriminate].
  destruct (bam_init1_succeeds env); [|discriminate].
  injection Hnew as <- <-.
  apply resets_held_keep in Hresets; [|reflexivity|reflexivity].
  destruct Hresets as [-> ->].
  apply held_eq; cbn; lia.
Qed.

Lemma reader_lifetime_is_balanced_witness :
  BamParser_delete all_set one_reader_held = nothing_held.
Proof.
  exact (reader_lifetime_is_balanced sample_env "reads.bam" 2 nothing_held
           all_set all_set one_reader_held one_reader_held
           eq_refl eq_refl).
Defined.

(** X12.  A second [reset] changes nothing: the reader that [reset]
    returns is the reader that [reset] returns for it. *)
Theorem reset_is_idempotent
    (env : environment) (self self' : BamParser) :
  reset env self = Some self' -> reset env self' = Some self'.
Proof.
  unfold reset. intros H.
  destruct (hts_open (files env) (path_ self)) as [file|] eqn:Hopen;
    [|discriminate].
  destruct (sam_hdr_read file) as [[header file']|] eqn:Hheader;
    [|discriminate].
  injection H as <-. cbn. rewrite Hopen, Hheader. reflexivity.
Qed.

Lemma reset_is_idempotent_witness :
  reset sample_env sample_rewound = Some sample_rewound.
Proof.
  exact (reset_is_idempotent sample_env sample_exhausted sample_rewound
           eq_refl).
Defined.
